(** * kpng service proxy: change tracker, snapshot and bounded-frequency runner

    A shallow embedding of
    - [backends/iptables/service.go]: [BaseServiceInfo], the
      [ServiceChangeTracker] ([Update], [Delete], [serviceToServiceMap]) and
      the [ServicesSnapshot] ([Update], [apply], [merge]);
    - [backends/userspacelin/userspace_util.go]: [ShouldSkipService] and the
      [BoundedFrequencyRunner] ([construct], [RetryAfter], [doRetry]).

    Go maps are finite maps ([gmap]); a Go map that is [nil] reads as the
    empty map, and the code never writes to, nor nil-tests, a stored map, so
    both are [∅].  A pointer that may be [nil] is an [option].  A run-time
    panic is an explicit outcome. *)

From Stdlib Require Import ZArith String Ascii.
From stdpp Require Import gmap strings list fin_maps pretty.

Local Open Scope string_scope.
Local Open Scope Z_scope.

(** ** Outcomes of a call that may panic *)

Inductive panic : Type :=
  | NilPointerDereference
  | PanicMaxLtMin (name : string) (maxInterval minInterval : Z)
  | PanicNilTimer (name : string).

Inductive outcome (A : Type) : Type :=
  | Returns (a : A)
  | Panics (p : panic).
Arguments Returns {A} a.
Arguments Panics {A} p.

Definition panicked {A} (o : outcome A) : Prop :=
  match o with Panics _ => True | Returns _ => False end.

(** ** Iteration over a Go map

    [for k, v := range m] visits every entry of [m] exactly once, in an
    order the language leaves unspecified.  The order is an explicit
    parameter: any enumeration of the map's entries.  An instance fixes
    one order for each map value, where Go chooses an order afresh at each
    [range] statement: a statement that compares two executions takes one
    instance for each. *)

Class MapRange : Type := {
  range : ∀ {K : Type} `{Countable K} {V : Type}, gmap K V → list (K * V);
  range_perm : ∀ {K : Type} `{Countable K} {V : Type} (m : gmap K V),
      range m ≡ₚ map_to_list m
}.

(** One particular order, used to run the model on concrete inputs. *)
Definition trieOrder : MapRange :=
  {| range := λ K _ _ V m, map_to_list m;
     range_perm := λ K _ _ V m, reflexivity (map_to_list m) |}.

(** The opposite order. *)
Definition reverseTrieOrder : MapRange :=
  {| range := λ K _ _ V m, reverse (map_to_list m);
     range_perm := λ K _ _ V m, reverse_Permutation (map_to_list m) |}.

(** ** Conversion of an integer to a string

    [string(i)], for [i] of an integer type, is the UTF-8 encoding of the
    code point [i], and that of U+FFFD when [i] is not a valid code point:
    negative, above U+10FFFF, or a surrogate. *)

Definition byte (b : Z) : ascii := ascii_of_N (Z.to_N b).

Definition runeString (r : Z) : string :=
  if (0 <=? r)%Z && (r <? 128)%Z then
    String (byte r) EmptyString
  else if (0 <=? r)%Z && (r <? 2048)%Z then
    String (byte (192 + r / 64)) (String (byte (128 + r mod 64)) EmptyString)
  else if (r <? 0)%Z || (1114111 <? r)%Z || ((55296 <=? r)%Z && (r <=? 57343)%Z) then
    String (byte 239) (String (byte 191) (String (byte 189) EmptyString))
  else if (r <? 65536)%Z then
    String (byte (224 + r / 4096))
      (String (byte (128 + (r / 64) mod 64))
         (String (byte (128 + r mod 64)) EmptyString))
  else
    String (byte (240 + r / 262144))
      (String (byte (128 + (r / 4096) mod 64))
         (String (byte (128 + (r / 64) mod 64))
            (String (byte (128 + r mod 64)) EmptyString))).

Module iptables.

(** *** Messages of the API (localnetv1) and of k8s (v1) *)

(** Modelled from the spec: the declaration of [localnetv1.Protocol] is not
    among the sources; the spec gives "protocol: one of {TCP, UDP, SCTP}". *)
Inductive Protocol : Type := TCP | UDP | SCTP.

Definition ProtocolUDP : string := "UDP".
Definition ServiceTypeExternalName : string := "ExternalName".
Definition AnnotationTopologyAwareHints : string :=
  "service.kubernetes.io/topology-aware-hints".

Inductive IPFamily : Type := IPv4Protocol | IPv6Protocol.

Record IPSet : Type := { V4 : list string; V6 : list string }.

(** [LoadBalancerIPs] may be a nil pointer ([getLoadBalancerIPs] tests it);
    [ClusterIPs] and [ExternalIPs] are read without a test. *)
Record ServiceIPs : Type := {
  ClusterIPs : IPSet;
  ExternalIPs : IPSet;
  LoadBalancerIPs : option IPSet
}.

Record IPFilter : Type := { SourceRanges : list string }.

Record PortMapping : Type := {
  pm_Name : string;
  pm_Protocol : Protocol;
  pm_Port : Z;
  pm_NodePort : Z;
  pm_TargetPort : Z;
  pm_TargetPortName : string
}.

Record Service_ClientIP : Type := { TimeoutSeconds : Z }.

(** The [SessionAffinity] field is an [interface{}] holding one arm of a
    oneof. *)
Inductive isService_SessionAffinity : Type :=
  | Service_None
  | Service_ClientIP_ (c : Service_ClientIP).

Record Service : Type := {
  Namespace : string;
  Name : string;
  Type_ : string;
  Annotations : gmap string string;
  IPs : ServiceIPs;
  IPFilters : list IPFilter;
  Ports : list PortMapping;
  SessionAffinity_ : isService_SessionAffinity
}.

(** *** Keys *)

Definition NamespacedName : Type := string * string.

Record ServicePortName : Type := {
  spn_NamespacedName : NamespacedName;
  spn_Port : string;
  spn_Protocol : Protocol
}.

#[export] Instance Protocol_eq_dec : EqDecision Protocol.
Proof. solve_decision. Defined.

#[export] Instance Protocol_countable : Countable Protocol.
Proof.
  refine (inj_countable'
    (λ p, match p with TCP => 0%nat | UDP => 1%nat | SCTP => 2%nat end)
    (λ n, match n with 0%nat => TCP | 1%nat => UDP | _ => SCTP end) _).
  by intros [].
Defined.

#[export] Instance ServicePortName_eq_dec : EqDecision ServicePortName.
Proof. solve_decision. Defined.

#[export] Instance ServicePortName_countable : Countable ServicePortName.
Proof.
  refine (inj_countable'
    (λ n, (spn_NamespacedName n, spn_Port n, spn_Protocol n))
    (λ t, {| spn_NamespacedName := t.1.1; spn_Port := t.1.2;
             spn_Protocol := t.2 |}) _).
  by intros [].
Defined.

(** *** net.IP *)

(** [net.IP] is a byte slice; the nil slice is the empty list. *)
Definition IP : Type := list Z.

(** What the code takes from outside the repository's sources: the [net]
    and [strings] calls, the conversion [string(p)] of a value of the API's
    [Protocol] type (its declaration fixes what the conversion yields), and
    the helpers of the package whose definitions are in other files. *)
Class Externals : Type := {
  protocolString : Protocol → string;
  ParseIP : string → IP;
  IPString : IP → string;
  ToLower : string → string;
  RequestsOnlyLocalTraffic : Service → bool;
  MapIPsByIPFamily : IPSet → IPFamily → list string;
  ServicePortNameString : ServicePortName → string;
  servicePortChainName : string → string → string;
  serviceFirewallChainName : string → string → string;
  serviceLBChainName : string → string → string
}.

(** The conversion [string(p)] when [Protocol] is an enum as protoc-gen-go
    declares one, a named [int32]: the conversion of an integer, the enum's
    number.  [localnetv1] is generated by protoc-gen-go: the sources use its
    oneof wrapper [Service_ClientIP] and its getter [GetV4].  The numbers of
    the enum, which are declared with it, are [num]. *)
Definition protobufExternals (num : Protocol → Z) (E : Externals) : Externals :=
  {| protocolString := λ p, runeString (num p);
     ParseIP := ParseIP;
     IPString := IPString;
     ToLower := ToLower;
     RequestsOnlyLocalTraffic := RequestsOnlyLocalTraffic;
     MapIPsByIPFamily := MapIPsByIPFamily;
     ServicePortNameString := ServicePortNameString;
     servicePortChainName := servicePortChainName;
     serviceFirewallChainName := serviceFirewallChainName;
     serviceLBChainName := serviceLBChainName |}.

(** Modelled from the spec: [GetClusterIPByFamily] is defined in another
    file of the package; the spec gives "resolving cluster_ip from the
    Service's family-keyed IP set; if absent [...]", a single address of the
    family.  The address is the first of the family's list, the empty
    string when the list is empty. *)
Definition GetClusterIPByFamily (ipFamily : IPFamily) (service : Service) : string :=
  match ipFamily with
  | IPv4Protocol => default "" (head (V4 (ClusterIPs (IPs service))))
  | IPv6Protocol => default "" (head (V6 (ClusterIPs (IPs service))))
  end.

(** *** BaseServiceInfo and serviceInfo *)

Record SessionAffinity : Type := { ClientIP : option Service_ClientIP }.

Record BaseServiceInfo : Type := {
  clusterIP : IP;
  port : Z;
  protocol : Protocol;
  nodePort : Z;
  loadBalancerIPs : list string;
  sessionAffinity : SessionAffinity;
  stickyMaxAgeSeconds : Z;
  externalIPs : list string;
  loadBalancerSourceRanges : list string;
  healthCheckNodePort : Z;
  nodeLocalExternal : bool;
  nodeLocalInternal : bool;
  internalTrafficPolicy : option string;
  hintsAnnotation : string;
  targetPort : Z;
  targetPortName : string;
  portName : string
}.

Record serviceInfo : Type := {
  base : BaseServiceInfo;
  serviceNameString : string;
  servicePortChainName_ : string;
  serviceFirewallChainName_ : string;
  serviceLBChainName_ : string
}.

(** The [ServicePort] interface with the two implementations the sources
    declare; the dynamic type is what the type assertion in
    [ServicesSnapshot.Update] tests. *)
Inductive ServicePort : Type :=
  | BasePort (b : BaseServiceInfo)
  | InfoPort (i : serviceInfo).

Definition baseOf (p : ServicePort) : BaseServiceInfo :=
  match p with BasePort b => b | InfoPort i => base i end.

Definition ClusterIP (p : ServicePort) : IP := clusterIP (baseOf p).
Definition Protocol_ (p : ServicePort) : Protocol := protocol (baseOf p).
Definition HealthCheckNodePort (p : ServicePort) : Z := healthCheckNodePort (baseOf p).

Definition getSessionAffinity (affinity : isService_SessionAffinity) : SessionAffinity :=
  match affinity with
  | Service_ClientIP_ c => {| ClientIP := Some c |}
  | Service_None => {| ClientIP := None |}
  end.

Definition getLoadBalancerIPs (ips : option IPSet) (ipFamily : IPFamily) : list string :=
  match ips with
  | None => []
  | Some s => match ipFamily with IPv4Protocol => V4 s | IPv6Protocol => V6 s end
  end.

Definition getLoadbalancerSourceRanges (filters : list IPFilter) : list string :=
  foldl (λ (sourceRanges : list string) filter,
           if bool_decide (length (SourceRanges filter) ≤ 0)%nat then sourceRanges
           else (sourceRanges ++ SourceRanges filter)%list)
        [] filters.

(** *** The change tracker and the snapshot *)

Abbreviation serviceChange := (gmap ServicePortName ServicePort).
Abbreviation ServicesSnapshot := (gmap NamespacedName serviceChange).

Definition makeServicePortFunc : Type :=
  PortMapping → Service → BaseServiceInfo → ServicePort.

(** [items] maps a service to a pointer to its change: [Some None] is a key
    bound to the nil pointer, [Some (Some c)] a key bound to a pointer to
    the map [c].  Each pointer is held by [items] alone.  The [recorder]
    field is never read by the functions below and is left out. *)
Record ServiceChangeTracker : Type := {
  items : gmap NamespacedName (option serviceChange);
  makeServiceInfo : option makeServicePortFunc;
  ipFamily : IPFamily
}.

Definition NewServiceChangeTracker (makeServiceInfo : option makeServicePortFunc)
    (ipFamily : IPFamily) : ServiceChangeTracker :=
  {| items := ∅; makeServiceInfo := makeServiceInfo; ipFamily := ipFamily |}.

Definition with_items (sct : ServiceChangeTracker)
    (its : gmap NamespacedName (option serviceChange)) : ServiceChangeTracker :=
  {| items := its; makeServiceInfo := makeServiceInfo sct; ipFamily := ipFamily sct |}.

Record UpdateServiceMapResult : Type := {
  HCServiceNodePorts : gmap NamespacedName Z;
  UDPStaleClusterIP : gset string
}.

(** The conversion [uint16(n)] of an [int]. *)
Definition uint16 (n : Z) : Z := n mod 65536.

Definition IsServiceIPSet (service : Service) : bool :=
  bool_decide (0 < length (V4 (ClusterIPs (IPs service))))%nat
  || bool_decide (0 < length (V6 (ClusterIPs (IPs service))))%nat.

Section WithExternals.
Context {E : Externals}.

Definition newBaseServiceInfo (sct : ServiceChangeTracker) (port : PortMapping)
    (service : Service) : BaseServiceInfo :=
  let nodeLocalExternal := if RequestsOnlyLocalTraffic service then true else false in
  let nodeLocalInternal := false in
  let clusterIP := GetClusterIPByFamily (ipFamily sct) service in
  let ipFamilyMap := MapIPsByIPFamily (ExternalIPs (IPs service)) in
  {| clusterIP := ParseIP clusterIP;
     port := pm_Port port;
     portName := pm_Name port;
     targetPort := pm_TargetPort port;
     targetPortName := pm_TargetPortName port;
     protocol := pm_Protocol port;
     nodePort := pm_NodePort port;
     nodeLocalExternal := nodeLocalExternal;
     nodeLocalInternal := nodeLocalInternal;
     hintsAnnotation := default "" (Annotations service !! AnnotationTopologyAwareHints);
     loadBalancerSourceRanges := getLoadbalancerSourceRanges (IPFilters service);
     loadBalancerIPs := getLoadBalancerIPs (LoadBalancerIPs (IPs service)) (ipFamily sct);
     sessionAffinity := getSessionAffinity (SessionAffinity_ service);
     externalIPs := ipFamilyMap (ipFamily sct);
     (* fields the constructor leaves at their zero value *)
     stickyMaxAgeSeconds := 0;
     healthCheckNodePort := 0;
     internalTrafficPolicy := None |}.

Definition newServiceInfo : makeServicePortFunc := λ port service baseInfo,
  let svcName : NamespacedName := (Namespace service, Name service) in
  let svcPortName := {| spn_NamespacedName := svcName; spn_Port := pm_Name port;
                        spn_Protocol := protocol baseInfo |} in
  let protocol := ToLower (protocolString (protocol baseInfo)) in
  let serviceNameString := ServicePortNameString svcPortName in
  InfoPort {| base := baseInfo;
              serviceNameString := serviceNameString;
              servicePortChainName_ := servicePortChainName serviceNameString protocol;
              serviceFirewallChainName_ := serviceFirewallChainName serviceNameString protocol;
              serviceLBChainName_ := serviceLBChainName serviceNameString protocol |}.

(** One iteration of the loop over [service.Ports]. *)
Definition serviceToServiceMap_step (sct : ServiceChangeTracker) (service : Service)
    (serviceMap : serviceChange) (servicePort : PortMapping) : serviceChange :=
  let svcName : NamespacedName := (Namespace service, Name service) in
  let svcPortName := {| spn_NamespacedName := svcName; spn_Port := pm_Name servicePort;
                        spn_Protocol := pm_Protocol servicePort |} in
  let baseSvcInfo := newBaseServiceInfo sct servicePort service in
  match makeServiceInfo sct with
  | Some mk => <[svcPortName := mk servicePort service baseSvcInfo]> serviceMap
  | None => <[svcPortName := BasePort baseSvcInfo]> serviceMap
  end.

Definition serviceToServiceMap (sct : ServiceChangeTracker) (service : option Service)
    : serviceChange :=
  match service with
  | None => ∅
  | Some service =>
      let clusterIP := GetClusterIPByFamily (ipFamily sct) service in
      if String.eqb clusterIP "" then ∅
      else foldl (serviceToServiceMap_step sct service) ∅ (Ports service)
  end.

(** [ServiceChangeTracker.Update].  When the key is bound to the nil pointer
    (what [Delete] stores), the lookup succeeds with [change = nil] and the
    assignment [*change = ...] dereferences it. *)
Definition ServiceChangeTracker_Update (sct : ServiceChangeTracker)
    (current : option Service) : outcome (ServiceChangeTracker * bool) :=
  match current with
  | None => Returns (sct, false)
  | Some svc =>
      let namespacedName : NamespacedName := (Namespace svc, Name svc) in
      match items sct !! namespacedName with
      | Some None => Panics NilPointerDereference
      | Some (Some _) | None =>
          let its := <[namespacedName := Some (serviceToServiceMap sct current)]> (items sct) in
          Returns (with_items sct its, bool_decide (0 < size its)%nat)
      end
  end.

Definition ServiceChangeTracker_Delete (sct : ServiceChangeTracker)
    (namespace name : string) : ServiceChangeTracker * bool :=
  let namespacedName : NamespacedName := (namespace, name) in
  let its := <[namespacedName := None]> (items sct) in
  (with_items sct its, bool_decide (0 < size its)%nat).

Context {R : MapRange}.

(** The loop of [merge]'s deletion branch over the ports stored under the
    key, in the order they are visited. *)
Definition staleLoop (UDPStaleClusterIP : gset string)
    (ports : list (ServicePortName * ServicePort)) : gset string :=
  foldl (λ (acc : gset string) (e : ServicePortName * ServicePort),
           if String.eqb (protocolString (Protocol_ e.2)) ProtocolUDP
           then {[ IPString (ClusterIP e.2) ]} ∪ acc
           else acc)
        UDPStaleClusterIP ports.

(** [ServicesSnapshot.merge]; the set [UDPStaleClusterIP] is shared with the
    caller, so the updated set is returned with the snapshot.  Indexing the
    snapshot at a key it does not hold reads the nil map. *)
Definition ServicesSnapshot_merge (svcSnap : ServicesSnapshot) (svcName : NamespacedName)
    (other : option serviceChange) (UDPStaleClusterIP : gset string)
    : ServicesSnapshot * gset string :=
  match other with
  | None =>
      (delete svcName svcSnap,
       staleLoop UDPStaleClusterIP (range (default ∅ (svcSnap !! svcName))))
  | Some other => (<[svcName := other]> svcSnap, UDPStaleClusterIP)
  end.

(** The loop of [apply] over the pending changes, in the order they are
    visited. *)
Definition applyLoop (acc : ServicesSnapshot * gset string)
    (changes : list (NamespacedName * option serviceChange))
    : ServicesSnapshot * gset string :=
  foldl (λ (acc : ServicesSnapshot * gset string)
           (e : NamespacedName * option serviceChange),
           ServicesSnapshot_merge acc.1 e.1 e.2 acc.2)
        acc changes.

Definition ServicesSnapshot_apply (svcSnap : ServicesSnapshot)
    (changes : ServiceChangeTracker) (UDPStaleClusterIP : gset string)
    : ServicesSnapshot * ServiceChangeTracker * gset string :=
  let r := applyLoop (svcSnap, UDPStaleClusterIP) (range (items changes)) in
  (r.1, with_items changes ∅, r.2).

(** The scan of the snapshot that fills [HCServiceNodePorts]: the inner
    loop over the ports of one service. *)
Definition scanPorts (svcPortName : NamespacedName)
    (hc : gmap NamespacedName Z) (svcPortMap : list (ServicePortName * ServicePort))
    : gmap NamespacedName Z :=
  foldl (λ (acc : gmap NamespacedName Z) (e : ServicePortName * ServicePort),
           match e.2 with
           | InfoPort svcInfo =>
               if bool_decide (healthCheckNodePort (base svcInfo) ≠ 0)
               then <[svcPortName := uint16 (healthCheckNodePort (base svcInfo))]> acc
               else acc
           | BasePort _ => acc (* the type assertion fails: continue *)
           end)
        hc svcPortMap.

(** The outer loop over the services, in the order they are visited. *)
Definition scanLoop (hc : gmap NamespacedName Z)
    (services : list (NamespacedName * serviceChange)) : gmap NamespacedName Z :=
  foldl (λ (acc : gmap NamespacedName Z) (e : NamespacedName * serviceChange),
           scanPorts e.1 acc (range e.2))
        hc services.

Definition scanSnapshot (svcSnap : ServicesSnapshot) : gmap NamespacedName Z :=
  scanLoop ∅ (range svcSnap).

Definition ServicesSnapshot_Update (svcSnap : ServicesSnapshot)
    (changes : ServiceChangeTracker)
    : ServicesSnapshot * ServiceChangeTracker * UpdateServiceMapResult :=
  let '(svcSnap', changes', stale) := ServicesSnapshot_apply svcSnap changes ∅ in
  (svcSnap', changes',
   {| HCServiceNodePorts := scanSnapshot svcSnap'; UDPStaleClusterIP := stale |}).

End WithExternals.

End iptables.

Module userspacelin.
Import iptables.

Definition ShouldSkipService (service : Service) : bool :=
  if negb (IsServiceIPSet service) then true
  else if String.eqb (Type_ service) ServiceTypeExternalName then true
  else false.

(** *** Time

    A [time.Time] is an instant counted in nanoseconds from the zero
    instant (the one [IsZero] recognises); a [time.Duration] is an [int64]
    count of nanoseconds, and [Sub] saturates at its bounds. *)
Definition Time : Type := Z.
Definition Duration : Type := Z.

Definition minDuration : Duration := - 2 ^ 63.
Definition maxDuration : Duration := 2 ^ 63 - 1.
Definition Second : Duration := 1000000000.

Definition Time_IsZero (t : Time) : bool := (t =? 0)%Z.
Definition Time_Before (t u : Time) : bool := (t <? u)%Z.
Definition Time_Add (t : Time) (d : Duration) : Time := t + d.
Definition Time_Sub (t u : Time) : Duration :=
  if (t - u <? minDuration)%Z then minDuration
  else if (maxDuration <? t - u)%Z then maxDuration
  else t - u.

(** The [timer] interface, with the state of [realTimer]: the deadline
    [next] set by the last [Reset], whether the underlying timer is armed,
    and the reading [clock] of the clock the timer is driven by. *)
Record timer : Type := {
  clock : Time;
  next : Time;
  armed : bool
}.

Definition timer_Now (t : timer) : Time := clock t.
Definition timer_Remaining (t : timer) : Duration := Time_Sub (next t) (clock t).
Definition timer_Stop (t : timer) : timer :=
  {| clock := clock t; next := next t; armed := false |}.
Definition timer_Reset (t : timer) (d : Duration) : timer :=
  {| clock := clock t; next := Time_Add (clock t) d; armed := true |}.

(** Time passes: the next reading of the clock is later by [elapsed]. *)
Definition timer_elapse (t : timer) (elapsed : Duration) : timer :=
  {| clock := clock t + elapsed; next := next t; armed := armed t |}.

(** The rate limiter: [nullLimiter], or the token bucket of
    [flowcontrol], of which only the construction is in the sources; [qps]
    is kept as the quotient's two operands. *)
Inductive rateLimiter : Type :=
  | nullLimiter
  | tokenBucketRateLimiter (qpsNum qpsDen : Z) (burst : Z).

Section Runner.
(** The type of the closures [fn]. *)
Variable Fn : Type.

(** [run] and [retry] are channels of capacity one: whether a signal is
    queued.  The two mutexes guard a run that is sequential here. *)
Record BoundedFrequencyRunner : Type := {
  name : string;
  minInterval : Duration;
  maxInterval : Duration;
  run : bool;
  fn : Fn;
  lastRun : Time;
  timer_ : timer;
  limiter : rateLimiter;
  retry : bool;
  retryTime : Time
}.

Definition construct (name : string) (fn : Fn) (minInterval maxInterval : Duration)
    (burstRuns : Z) (timer : option timer) : outcome BoundedFrequencyRunner :=
  if (maxInterval <? minInterval)%Z then
    Panics (PanicMaxLtMin name maxInterval minInterval)
  else
    match timer with
    | None => Panics (PanicNilTimer name)
    | Some timer =>
        Returns {| name := name; fn := fn;
                   minInterval := minInterval; maxInterval := maxInterval;
                   run := false; retry := false;
                   timer_ := timer;
                   limiter := if (minInterval =? 0)%Z then nullLimiter
                              else tokenBucketRateLimiter Second minInterval burstRuns;
                   (* zero values *)
                   lastRun := 0; retryTime := 0 |}
    end.

Definition with_retry (bfr : BoundedFrequencyRunner) (retryTime : Time) (retry : bool)
    : BoundedFrequencyRunner :=
  {| name := name bfr; minInterval := minInterval bfr; maxInterval := maxInterval bfr;
     run := run bfr; fn := fn bfr; lastRun := lastRun bfr; timer_ := timer_ bfr;
     limiter := limiter bfr; retry := retry; retryTime := retryTime |}.

Definition with_timer (bfr : BoundedFrequencyRunner) (t : timer)
    : BoundedFrequencyRunner :=
  {| name := name bfr; minInterval := minInterval bfr; maxInterval := maxInterval bfr;
     run := run bfr; fn := fn bfr; lastRun := lastRun bfr; timer_ := t;
     limiter := limiter bfr; retry := retry bfr; retryTime := retryTime bfr |}.

Definition RetryAfter (bfr : BoundedFrequencyRunner) (interval : Duration)
    : BoundedFrequencyRunner :=
  let retryTime' := Time_Add (timer_Now (timer_ bfr)) interval in
  if negb (Time_IsZero (retryTime bfr)) && Time_Before (retryTime bfr) retryTime'
  then bfr
  else with_retry bfr retryTime' true.

(** [doRetry].  The [timer] is read three times, by [Now()], by
    [Remaining()] and by [Reset()], and [realTimer] calls [time.Now()] at
    each: [lapse1] is the time that passes between the first reading and
    the second, [lapse2] between the second and the third.  A timer whose
    clock stands still during the call has both at zero. *)
Definition doRetry (lapse1 lapse2 : Duration) (bfr : BoundedFrequencyRunner)
    : BoundedFrequencyRunner :=
  if Time_IsZero (retryTime bfr) then bfr
  else
    let retryInterval := Time_Sub (retryTime bfr) (timer_Now (timer_ bfr)) in
    let bfr := with_retry bfr 0 (retry bfr) in
    let bfr := with_timer bfr (timer_elapse (timer_ bfr) lapse1) in
    if (retryInterval <? timer_Remaining (timer_ bfr))%Z
    then
      let bfr := with_timer bfr (timer_Stop (timer_ bfr)) in
      let bfr := with_timer bfr (timer_elapse (timer_ bfr) lapse2) in
      with_timer bfr (timer_Reset (timer_ bfr) retryInterval)
    else bfr.

(** Whether [doRetry] goes through its two tests and resets the timer. *)
Definition retryResets (lapse1 : Duration) (bfr : BoundedFrequencyRunner) : bool :=
  negb (Time_IsZero (retryTime bfr))
  && (Time_Sub (retryTime bfr) (timer_Now (timer_ bfr))
      <? timer_Remaining (timer_elapse (timer_ bfr) lapse1))%Z.

(** The [retry] arm of [Loop]'s select: the signal is received, then
    [doRetry] runs. *)
Definition Loop_retry (lapse1 lapse2 : Duration) (bfr : BoundedFrequencyRunner)
    : BoundedFrequencyRunner :=
  doRetry lapse1 lapse2 (with_retry bfr (retryTime bfr) false).

End Runner.

Arguments name {Fn} _.
Arguments minInterval {Fn} _.
Arguments maxInterval {Fn} _.
Arguments run {Fn} _.
Arguments fn {Fn} _.
Arguments lastRun {Fn} _.
Arguments timer_ {Fn} _.
Arguments limiter {Fn} _.
Arguments retry {Fn} _.
Arguments retryTime {Fn} _.
Arguments construct {Fn} _ _ _ _ _ _.
Arguments with_retry {Fn} _ _ _.
Arguments with_timer {Fn} _ _.
Arguments RetryAfter {Fn} _ _.
Arguments doRetry {Fn} _ _ _.
Arguments retryResets {Fn} _ _.
Arguments Loop_retry {Fn} _ _ _.

(** *** The rest of the runner: [Run], [stop], [tryRun] and the start of
    [Loop] *)

(** [int64] subtraction wraps around. *)
Definition wrap64 (z : Z) : Z := (z + 2 ^ 63) mod 2 ^ 64 - 2 ^ 63.

Definition timer_Since (t : timer) (u : Time) : Duration := Time_Sub (clock t) u.

(** [TryAccept]: the null limiter always accepts; the answer of the token
    bucket, whose code is [flowcontrol]'s, is the argument [bucket]. *)
Definition limiter_TryAccept (l : rateLimiter) (bucket : bool) : bool :=
  match l with
  | nullLimiter => true
  | tokenBucketRateLimiter _ _ _ => bucket
  end.

Section RunnerLoop.
Context {Fn : Type}.

(** What a call of the closure does to the runner it belongs to: it may
    call [Run] and [RetryAfter], and time passes. *)
Variable call : Fn → BoundedFrequencyRunner Fn → BoundedFrequencyRunner Fn.

Definition with_run (bfr : BoundedFrequencyRunner Fn) (run : bool)
    : BoundedFrequencyRunner Fn :=
  {| name := name bfr; minInterval := minInterval bfr; maxInterval := maxInterval bfr;
     run := run; fn := fn bfr; lastRun := lastRun bfr; timer_ := timer_ bfr;
     limiter := limiter bfr; retry := retry bfr; retryTime := retryTime bfr |}.

Definition with_lastRun (bfr : BoundedFrequencyRunner Fn) (t : Time)
    : BoundedFrequencyRunner Fn :=
  {| name := name bfr; minInterval := minInterval bfr; maxInterval := maxInterval bfr;
     run := run bfr; fn := fn bfr; lastRun := t; timer_ := timer_ bfr;
     limiter := limiter bfr; retry := retry bfr; retryTime := retryTime bfr |}.

(** The send on [run] that does not block: the signal is queued, or it
    already is. *)
Definition Run (bfr : BoundedFrequencyRunner Fn) : BoundedFrequencyRunner Fn :=
  with_run bfr true.

Definition stop (bfr : BoundedFrequencyRunner Fn) : BoundedFrequencyRunner Fn :=
  with_timer bfr (timer_Stop (timer_ bfr)).

Definition tryRun (bucket : bool) (bfr : BoundedFrequencyRunner Fn)
    : BoundedFrequencyRunner Fn :=
  if limiter_TryAccept (limiter bfr) bucket then
    let bfr := call (fn bfr) bfr in
    let bfr := with_lastRun bfr (timer_Now (timer_ bfr)) in
    with_timer bfr (timer_Reset (timer_Stop (timer_ bfr)) (maxInterval bfr))
  else
    let elapsed := timer_Since (timer_ bfr) (lastRun bfr) in
    let nextPossible := wrap64 (minInterval bfr - elapsed) in
    let nextScheduled := timer_Remaining (timer_ bfr) in
    let nextScheduled :=
      if (nextPossible <? nextScheduled)%Z then nextPossible else nextScheduled in
    with_timer bfr (timer_Reset (timer_Stop (timer_ bfr)) nextScheduled).

(** The first statement of [Loop]. *)
Definition Loop_start (bfr : BoundedFrequencyRunner Fn) : BoundedFrequencyRunner Fn :=
  with_timer bfr (timer_Reset (timer_ bfr) (maxInterval bfr)).

(** The [run] arm of [Loop]'s select: the signal is received, then [tryRun]
    runs. *)
Definition Loop_run (bucket : bool) (bfr : BoundedFrequencyRunner Fn)
    : BoundedFrequencyRunner Fn :=
  tryRun bucket (with_run bfr false).

End RunnerLoop.

(** *** Endpoints *)

Definition isValidEndpoint (host : string) (port : Z) : bool :=
  negb (String.eqb host "") && (0 <? port)%Z.

(** Modelled from the spec: the declaration of [localnetv1.Endpoint] is not
    among the sources; the spec gives the endpoint input as
    "{ips: {v4:[],v6:[]}}".  [IPs] is a pointer that [GetV4] reads
    nil-safely. *)
Record Endpoint : Type := { ep_IPs : option IPSet }.

Definition GetV4 (ips : option IPSet) : list string :=
  match ips with
  | Some s => V4 s
  | None => []
  end.

Section Endpoints.
(** [net.JoinHostPort] and [strconv.Itoa]. *)
Variable JoinHostPort : string → string → string.
Variable Itoa : Z → string.

(** One iteration of the inner loop over [svc.Ports]. *)
Definition portsToEndpoints_step (ip : string) (portsToEndpoints : gmap string (list string))
    (port : PortMapping) : gmap string (list string) :=
  if isValidEndpoint ip (pm_Port port) then
    <[pm_Name port :=
        (default [] (portsToEndpoints !! pm_Name port)
         ++ [JoinHostPort ip (Itoa (pm_TargetPort port))])%list]> portsToEndpoints
  else portsToEndpoints.

Definition buildPortsToEndpointsMap (ep : Endpoint) (svc : Service)
    : gmap string (list string) :=
  foldl (λ (portsToEndpoints : gmap string (list string)) (ip : string),
           foldl (portsToEndpoints_step ip) portsToEndpoints (Ports svc))
        ∅ (GetV4 (ep_IPs ep)).

End Endpoints.

(** *** Strings *)

(** One iteration of the loop of [ShuffleStrings]: [shuffled[j] = s[i]].
    An index out of range panics: [None]. *)
Definition shuffleStep (s : list string) (shuffled : option (list string))
    (ij : nat * nat) : option (list string) :=
  match shuffled, s !! ij.1 with
  | Some shuffled, Some x =>
      if bool_decide (ij.2 < length shuffled)%nat
      then Some (<[ij.2 := x]> shuffled)
      else None
  | _, _ => None
  end.

(** [ShuffleStrings], with the permutation that [utilrand.Perm] answers as
    an argument; the loop ranges over the pairs (index, value) of the
    permutation. *)
Definition ShuffleStrings (perm : list nat) (s : list string) : option (list string) :=
  foldl (shuffleStep s) (Some (replicate (length s) "")) (imap pair perm).

End userspacelin.

(** ** An instance of the externals for IPv4 literals

    Enough of [net.ParseIP] and [net.IP.String] to run the model on
    dotted-decimal addresses: [ParseIP] answers the 16-byte form of an IPv4
    literal and nil for any other text, [String] prints the nil address and
    the IPv4 forms.  The helpers of the package are given plain
    stand-ins. *)
Module IPv4Literals.
Import iptables.

Fixpoint fields (s : string) : list string :=
  match s with
  | EmptyString => [EmptyString]
  | String c r =>
      if Ascii.eqb c "." then EmptyString :: fields r
      else match fields r with
           | h :: t => String c h :: t
           | [] => [String c EmptyString]
           end
  end.

Definition digit (c : ascii) : option Z :=
  let n := Z.of_N (N_of_ascii c) in
  if bool_decide (48 ≤ n ≤ 57) then Some (n - 48) else None.

Fixpoint digits (s : string) (acc : Z) : option Z :=
  match s with
  | EmptyString => Some acc
  | String c r => match digit c with
                  | Some d => digits r (10 * acc + d)
                  | None => None
                  end
  end.

(** One decimal field: one to three digits, no leading zero, at most 255. *)
Definition octet (s : string) : option Z :=
  match s with
  | EmptyString => None
  | String c r =>
      if bool_decide (3 < String.length s)%nat then None
      else if Ascii.eqb c "0" && negb (String.eqb r EmptyString) then None
      else match digits s 0 with
           | Some n => if bool_decide (n ≤ 255) then Some n else None
           | None => None
           end
  end.

Definition v4InV6Prefix : list Z := [0; 0; 0; 0; 0; 0; 0; 0; 0; 0; 255; 255].

Definition parseIPv4 (s : string) : IP :=
  match fields s with
  | [a; b; c; d] =>
      match octet a, octet b, octet c, octet d with
      | Some a, Some b, Some c, Some d => (v4InV6Prefix ++ [a; b; c; d])%list
      | _, _, _, _ => []
      end
  | _ => []
  end.

Definition dotted (a b c d : Z) : string :=
  pretty a +:+ "." +:+ pretty b +:+ "." +:+ pretty c +:+ "." +:+ pretty d.

Definition ipv4String (ip : IP) : string :=
  match ip with
  | [] => "<nil>"
  | [a; b; c; d] => dotted a b c d
  | [0; 0; 0; 0; 0; 0; 0; 0; 0; 0; 255; 255; a; b; c; d] => dotted a b c d
  | _ => "?"
  end.

Definition lowerAscii (c : ascii) : ascii :=
  let n := N_of_ascii c in
  if bool_decide (65 ≤ n ≤ 90)%N then ascii_of_N (n + 32) else c.

Fixpoint toLower (s : string) : string :=
  match s with
  | EmptyString => EmptyString
  | String c r => String (lowerAscii c) (toLower r)
  end.

(** The conversion of a protocol to its name, as the spec names the
    protocols. *)
Definition protocolName (p : Protocol) : string :=
  match p with TCP => "TCP" | UDP => "UDP" | SCTP => "SCTP" end.

Definition externals : Externals :=
  {| protocolString := protocolName;
     ParseIP := parseIPv4;
     IPString := ipv4String;
     ToLower := toLower;
     RequestsOnlyLocalTraffic := λ _, false;
     MapIPsByIPFamily := λ ips family,
       match family with IPv4Protocol => V4 ips | IPv6Protocol => V6 ips end;
     ServicePortNameString := λ n,
       (spn_NamespacedName n).1 +:+ "/" +:+ (spn_NamespacedName n).2 +:+ ":" +:+ spn_Port n;
     servicePortChainName := λ n p, "KUBE-SVC-" +:+ n +:+ p;
     serviceFirewallChainName := λ n p, "KUBE-FW-" +:+ n +:+ p;
     serviceLBChainName := λ n p, "KUBE-XLB-" +:+ n +:+ p |}.

End IPv4Literals.

Import iptables userspacelin.

(** ** Concrete services and states *)

Module Scenario.

Definition key_ab : NamespacedName := ("a", "b").

Definition service_ab (type : string) (v4 : list string) (ports : list PortMapping)
    : Service :=
  {| Namespace := "a"; Name := "b"; Type_ := type; Annotations := ∅;
     IPs := {| ClusterIPs := {| V4 := v4; V6 := [] |};
               ExternalIPs := {| V4 := []; V6 := [] |};
               LoadBalancerIPs := None |};
     IPFilters := []; Ports := ports; SessionAffinity_ := Service_None |}.

Definition portMapping (name : string) (proto : Protocol) (port : Z) : PortMapping :=
  {| pm_Name := name; pm_Protocol := proto; pm_Port := port; pm_NodePort := 0;
     pm_TargetPort := 0; pm_TargetPortName := "" |}.

(** The service of the UDP scenario: one UDP port 53 on 10.0.0.1. *)
Definition dnsService : Service :=
  service_ab "" ["10.0.0.1"] [portMapping "p" UDP 53].

(** The same service after its cluster IP moved to 10.0.0.2. *)
Definition dnsServiceMoved : Service :=
  service_ab "" ["10.0.0.2"] [portMapping "p" UDP 53].

(** The same service once it has no cluster IP. *)
Definition dnsServiceUnassigned : Service :=
  service_ab "" [] [portMapping "p" UDP 53].

(** An ExternalName service that carries a cluster IP. *)
Definition externalNameService : Service :=
  service_ab ServiceTypeExternalName ["10.0.0.1"] [portMapping "p" TCP 80].

Definition v4Tracker : ServiceChangeTracker :=
  NewServiceChangeTracker None IPv4Protocol.

Definition name_p (proto : Protocol) : ServicePortName :=
  {| spn_NamespacedName := key_ab; spn_Port := "p"; spn_Protocol := proto |}.

(** A [serviceInfo] port of service a/b with a health-check node port. *)
Definition probedPort (portName : string) (hc : Z) : ServicePort :=
  InfoPort
    {| base := {| clusterIP := IPv4Literals.parseIPv4 "10.0.0.1"; port := 80;
                  protocol := TCP; nodePort := 0; loadBalancerIPs := [];
                  sessionAffinity := {| ClientIP := None |}; stickyMaxAgeSeconds := 0;
                  externalIPs := []; loadBalancerSourceRanges := [];
                  healthCheckNodePort := hc; nodeLocalExternal := false;
                  nodeLocalInternal := false; internalTrafficPolicy := None;
                  hintsAnnotation := ""; targetPort := 0; targetPortName := "";
                  portName := portName |};
       serviceNameString := "a/b:" +:+ portName;
       servicePortChainName_ := ""; serviceFirewallChainName_ := "";
       serviceLBChainName_ := "" |}.

Definition name_of (portName : string) : ServicePortName :=
  {| spn_NamespacedName := key_ab; spn_Port := portName; spn_Protocol := TCP |}.

(** A port set for a/b whose two ports declare different health-check
    node ports. *)
Definition twoProbes : serviceChange :=
  <[name_of "q" := probedPort "q" 8081]> {[ name_of "p" := probedPort "p" 8080 ]}.

(** A snapshot in which a/b has one port, with a health-check node port. *)
Definition probedSnapshot : ServicesSnapshot :=
  {[ key_ab := {[ name_of "p" := probedPort "p" 8080 ]} ]}.

End Scenario.

(** ** Programs and predicates the statements are about *)

Section Programs.
Context {E : Externals} {R : MapRange}.

(** The test of [merge]: [string(svcInfo.Protocol()) == string(v1.ProtocolUDP)]. *)
Definition isUDP (p : ServicePort) : bool :=
  String.eqb (protocolString (Protocol_ p)) ProtocolUDP.

(** [ip] is the printed cluster IP of a port of the port set [m] that
    passes the UDP test. *)
Definition udpClusterIP (m : serviceChange) (ip : string) : Prop :=
  ∃ pn p, m !! pn = Some p ∧ isUDP p = true ∧ ip = IPString (ClusterIP p).

(** The value [v] is the health-check node port, as [uint16], that a
    [serviceInfo] port of the port set [m] declares. *)
Definition declaresHealthCheck (m : serviceChange) (v : Z) : Prop :=
  ∃ pn i, m !! pn = Some (InfoPort i) ∧ healthCheckNodePort (base i) ≠ 0
          ∧ v = uint16 (healthCheckNodePort (base i)).

(** The health-check table as a statement of "one entry per port with a
    non-zero health-check node port, and no other entry". *)
Definition healthCheckTableExact (svcSnap : ServicesSnapshot)
    (hc : gmap NamespacedName Z) : Prop :=
  ∀ K v, hc !! K = Some v ↔
         ∃ m pn p, svcSnap !! K = Some m ∧ m !! pn = Some p
                   ∧ HealthCheckNodePort p ≠ 0 ∧ v = HealthCheckNodePort p.

(** Calls on the tracker between two applies. *)
Inductive trackerCall : Type :=
  | CallUpdate (current : option Service)
  | CallDelete (namespace name : string).

Fixpoint calls (cs : list trackerCall) (sct : ServiceChangeTracker)
    : outcome ServiceChangeTracker :=
  match cs with
  | [] => Returns sct
  | CallUpdate current :: cs =>
      match ServiceChangeTracker_Update sct current with
      | Returns (sct, _) => calls cs sct
      | Panics p => Panics p
      end
  | CallDelete namespace name :: cs =>
      calls cs (ServiceChangeTracker_Delete sct namespace name).1
  end.

(** [Update(S)]; apply; [Delete(S.ns, S.name)]; apply.  The result is the
    final snapshot and the results of the two applies. *)
Definition updateApplyDeleteApply (sct : ServiceChangeTracker)
    (svcSnap : ServicesSnapshot) (S : Service)
    : outcome (ServicesSnapshot * UpdateServiceMapResult * UpdateServiceMapResult) :=
  match ServiceChangeTracker_Update sct (Some S) with
  | Panics p => Panics p
  | Returns (sct1, _) =>
      let r1 := ServicesSnapshot_Update svcSnap sct1 in
      let sct3 := (ServiceChangeTracker_Delete r1.1.2 (Namespace S) (Name S)).1 in
      let r2 := ServicesSnapshot_Update r1.1.1 sct3 in
      Returns (r2.1.1, r1.2, r2.2)
  end.

(** [Update(S)]; apply; [Update(S')]; apply: the result of the second
    apply. *)
Definition updateApplyUpdateApply (sct : ServiceChangeTracker)
    (svcSnap : ServicesSnapshot) (S S' : Service) : outcome UpdateServiceMapResult :=
  match ServiceChangeTracker_Update sct (Some S) with
  | Panics p => Panics p
  | Returns (sct1, _) =>
      let r1 := ServicesSnapshot_Update svcSnap sct1 in
      match ServiceChangeTracker_Update r1.1.2 (Some S') with
      | Panics p => Panics p
      | Returns (sct3, _) => Returns (ServicesSnapshot_Update r1.1.1 sct3).2
      end
  end.

End Programs.

(** ** Further programs and predicates *)

Section Sessions.
Context {E : Externals} {R : MapRange}.

(** The key and the value that one iteration of [serviceToServiceMap]'s
    loop stores for the port mapping [pm]. *)
Definition servicePortNameOf (S : Service) (pm : PortMapping) : ServicePortName :=
  {| spn_NamespacedName := (Namespace S, Name S); spn_Port := pm_Name pm;
     spn_Protocol := pm_Protocol pm |}.

Definition servicePortOf (sct : ServiceChangeTracker) (S : Service) (pm : PortMapping)
    : ServicePort :=
  match makeServiceInfo sct with
  | Some mk => mk pm S (newBaseServiceInfo sct pm S)
  | None => BasePort (newBaseServiceInfo sct pm S)
  end.

(** No port of the port set has a health-check node port. *)
Definition unprobed (m : serviceChange) : Prop :=
  ∀ pn p, m !! pn = Some p → HealthCheckNodePort p = 0.

(** The tracker has no nil sentinel pending. *)
Definition noSentinel (sct : ServiceChangeTracker) : Prop :=
  ∀ K, items sct !! K ≠ Some None.

Definition isUpdate (c : trackerCall) : Prop :=
  match c with CallUpdate _ => True | CallDelete _ _ => False end.

(** A run of the proxy: calls on the tracker, and syncs that apply the
    pending changes to the snapshot.  The result carries what the last
    sync returned. *)
Inductive proxyCall : Type :=
  | Track (c : trackerCall)
  | Sync.

Fixpoint session (cs : list proxyCall) (svcSnap : ServicesSnapshot)
    (sct : ServiceChangeTracker) (last : option UpdateServiceMapResult)
    : outcome (ServicesSnapshot * ServiceChangeTracker * option UpdateServiceMapResult) :=
  match cs with
  | [] => Returns (svcSnap, sct, last)
  | Track c :: cs =>
      match calls [c] sct with
      | Returns sct => session cs svcSnap sct last
      | Panics p => Panics p
      end
  | Sync :: cs =>
      let r := ServicesSnapshot_Update svcSnap sct in
      session cs r.1.1 r.1.2 (Some r.2)
  end.

(** The health-check node ports of a snapshot are as the API gives them:
    a non-zero one is carried by a [serviceInfo], is a [uint16], and is the
    one of its service, the same on every port of the service that has
    one. *)
Definition probeConsistent (svcSnap : ServicesSnapshot) : Prop :=
  ∀ K m pn p, svcSnap !! K = Some m → m !! pn = Some p →
    HealthCheckNodePort p ≠ 0 →
    (∃ i, p = InfoPort i)
    ∧ 0 < HealthCheckNodePort p < 65536
    ∧ ∀ pn' p', m !! pn' = Some p' → HealthCheckNodePort p' ≠ 0 →
                HealthCheckNodePort p' = HealthCheckNodePort p.

(** The port set [m] has a port of protocol UDP whose cluster IP prints as
    [ip]. *)
Definition storesUDP (m : serviceChange) (ip : string) : Prop :=
  ∃ pn p, m !! pn = Some p ∧ Protocol_ p = UDP ∧ IPString (ClusterIP p) = ip.

(** The state of a proxy whose ports all come from the tracker's own
    constructors. *)
Definition probeFree (svcSnap : ServicesSnapshot) (sct : ServiceChangeTracker)
    (last : option UpdateServiceMapResult) : Prop :=
  (∀ K m, svcSnap !! K = Some m → unprobed m)
  ∧ (∀ K m, items sct !! K = Some (Some m) → unprobed m)
  ∧ (makeServiceInfo sct = None ∨ makeServiceInfo sct = Some newServiceInfo)
  ∧ (∀ res, last = Some res → HCServiceNodePorts res = ∅).

End Sessions.

Section EndpointsOf.
Variable JoinHostPort : string → string → string.
Variable Itoa : Z → string.

(** The endpoints of the port name [n]: for each IPv4 address of the
    endpoint in turn, for each port of the service in turn that has this
    name, the address joined with the target port, when the address is not
    empty and the port is positive. *)
Definition endpointsOf (ep : Endpoint) (svc : Service) (n : string) : list string :=
  ip ← GetV4 (ep_IPs ep);
  port ← Ports svc;
  if isValidEndpoint ip (pm_Port port) && String.eqb (pm_Name port) n
  then [JoinHostPort ip (Itoa (pm_TargetPort port))]
  else [].

(** What one port contributes to the entry of the name [n] for the
    address [ip]. *)
Definition contribution (ip : string) (n : string) (port : PortMapping) : list string :=
  if isValidEndpoint ip (pm_Port port) && String.eqb (pm_Name port) n
  then [JoinHostPort ip (Itoa (pm_TargetPort port))]
  else [].

(** The entry of a name, read as Go reads a missing key: the nil slice. *)
Definition entriesAt (m : gmap string (list string)) (n : string) : list string :=
  default [] (m !! n).

Definition noEmptyEntry (m : gmap string (list string)) : Prop :=
  ∀ n l, m !! n = Some l → l ≠ [].

End EndpointsOf.

Section RetrySignal.
Context {Fn : Type}.

(** The retry protocol between the callers of [RetryAfter] and the loop
    thread, at the grain of the critical sections: a caller runs
    [RetryAfter]; the loop receives the signal from the [retry] channel;
    the loop, having received, runs [doRetry], during which the clock
    advances by the two lapses; the clock advances.  The flag says whether the loop has received a signal and not yet run
    [doRetry]. *)
Inductive retryEvent : Type :=
  | evRetryAfter (interval : Duration)
  | evReceive
  | evDoRetry (lapse1 lapse2 : Duration)
  | evTick (elapsed : Duration).

Definition advance (bfr : BoundedFrequencyRunner Fn) (elapsed : Duration)
    : BoundedFrequencyRunner Fn :=
  with_timer bfr {| clock := clock (timer_ bfr) + elapsed; next := next (timer_ bfr);
                    armed := armed (timer_ bfr) |}.

(** [None] when the event cannot happen in the state. *)
Definition retryStep (ev : retryEvent) (st : BoundedFrequencyRunner Fn * bool)
    : option (BoundedFrequencyRunner Fn * bool) :=
  match ev with
  | evRetryAfter interval => Some (RetryAfter st.1 interval, st.2)
  | evReceive =>
      if retry st.1 && negb st.2
      then Some (with_retry st.1 (retryTime st.1) false, true)
      else None
  | evDoRetry lapse1 lapse2 =>
      if st.2 && (0 <=? lapse1)%Z && (0 <=? lapse2)%Z
      then Some (doRetry lapse1 lapse2 st.1, false)
      else None
  | evTick elapsed =>
      if (0 <=? elapsed)%Z then Some (advance st.1 elapsed, st.2) else None
  end.

Fixpoint retryRun (evs : list retryEvent) (st : BoundedFrequencyRunner Fn * bool)
    : option (BoundedFrequencyRunner Fn * bool) :=
  match evs with
  | [] => Some st
  | ev :: evs =>
      match retryStep ev st with
      | Some st => retryRun evs st
      | None => None
      end
  end.

(** The time that passes, over the runs of [doRetry] among the events,
    between the test of the remaining time and [Reset]'s reading of the
    clock. *)
Fixpoint resetLapse (evs : list retryEvent) : Duration :=
  match evs with
  | [] => 0
  | evDoRetry _ lapse2 :: evs => lapse2 + resetLapse evs
  | _ :: evs => resetLapse evs
  end.

(** A recorded retry time has its wake-up: the signal is queued, or the
    loop has received it and is about to run [doRetry]. *)
Definition retryCovered (st : BoundedFrequencyRunner Fn * bool) : Prop :=
  retryTime st.1 ≠ 0 → retry st.1 = true ∨ st.2 = true.

End RetrySignal.

(** A runner one second after its last run, with three seconds of minimum
    interval, a token bucket, and ten seconds to its deadline. *)
Definition sampleRunner : BoundedFrequencyRunner unit :=
  {| name := "r"; minInterval := 3 * Second; maxInterval := 20 * Second;
     run := false; fn := tt; lastRun := 100 * Second;
     timer_ := {| clock := 101 * Second; next := 111 * Second; armed := true |};
     limiter := tokenBucketRateLimiter Second (3 * Second) 1;
     retry := false; retryTime := 0 |}.

(** The same runner once a retry has been requested for one nanosecond
    before the timer's deadline. *)
Definition retryingRunner : BoundedFrequencyRunner unit :=
  RetryAfter sampleRunner (10 * Second - 1).

(** * Properties *)

(** ** The IPv4 instance *)

Example parse_print_10_0_0_1 :
  IPv4Literals.ipv4String (IPv4Literals.parseIPv4 "10.0.0.1") = "10.0.0.1".
Proof. vm_compute. reflexivity. Qed.

(** ** Ranging over a map *)

Section Range.
Context {R : MapRange} `{Countable K} {V : Type}.

Lemma elem_of_range (m : gmap K V) (k : K) (v : V) :
  (k, v) ∈ range m ↔ m !! k = Some v.
Proof. rewrite range_perm. apply elem_of_map_to_list. Qed.

Lemma NoDup_fst_range (m : gmap K V) : NoDup (range m).*1.
Proof. rewrite range_perm. apply NoDup_fst_map_to_list. Qed.

Lemma range_empty : range (∅ : gmap K V) = [].
Proof.
  apply Permutation_nil_r. rewrite range_perm. by rewrite map_to_list_empty.
Qed.

Lemma range_singleton (k : K) (v : V) : range ({[ k := v ]} : gmap K V) = [(k, v)].
Proof.
  apply Permutation_singleton_r. rewrite range_perm. by rewrite map_to_list_singleton.
Qed.

End Range.

(** ** [merge] and [apply] *)

Section Merge.
Context {E : Externals} {R : MapRange}.

Lemma staleLoop_base l acc ip : ip ∈ acc → ip ∈ staleLoop acc l.
Proof.
  revert acc. induction l as [|e l IH]; intros acc Hin; simpl; [done|].
  apply IH. case_match; set_solver.
Qed.

Lemma staleLoop_step l acc e :
  e ∈ l → isUDP e.2 = true → IPString (ClusterIP e.2) ∈ staleLoop acc l.
Proof.
  revert acc. induction l as [|e' l IH]; intros acc Hin Hudp.
  - by apply elem_of_nil in Hin.
  - apply elem_of_cons in Hin as [->|Hin]; simpl.
    + apply staleLoop_base. unfold isUDP in Hudp. rewrite Hudp. set_solver.
    + by apply IH.
Qed.

Lemma staleLoop_inv l acc ip :
  ip ∈ staleLoop acc l →
  ip ∈ acc ∨ ∃ e, e ∈ l ∧ isUDP e.2 = true ∧ ip = IPString (ClusterIP e.2).
Proof.
  revert acc. induction l as [|e l IH]; intros acc Hin; simpl in *; [by left|].
  apply IH in Hin as [Hin|(e' & He' & Hudp & ->)].
  - destruct (String.eqb (protocolString (Protocol_ e.2)) ProtocolUDP) eqn:Heq.
    + apply elem_of_union in Hin as [Hin|Hin]; [|by left].
      apply elem_of_singleton in Hin as ->.
      right. exists e. split; [left|]. by split.
    + by left.
  - right. exists e'. split; [by right|done].
Qed.

Lemma staleLoop_range (m : serviceChange) acc ip :
  ip ∈ staleLoop acc (range m) ↔ ip ∈ acc ∨ udpClusterIP m ip.
Proof.
  split.
  - intros [?|([pn p] & Hin & Hudp & ->)]%staleLoop_inv; [by left|].
    right. exists pn, p. by apply elem_of_range in Hin.
  - intros [?|(pn & p & Hm & Hudp & ->)]; [by apply staleLoop_base|].
    apply (staleLoop_step _ _ (pn, p)); [by apply elem_of_range|done].
Qed.

Lemma merge_replace svcSnap svcName (other : serviceChange) stale :
  ServicesSnapshot_merge svcSnap svcName (Some other) stale
  = (<[svcName := other]> svcSnap, stale).
Proof. reflexivity. Qed.

Lemma merge_delete_snapshot svcSnap svcName stale :
  (ServicesSnapshot_merge svcSnap svcName None stale).1 = delete svcName svcSnap.
Proof. reflexivity. Qed.

Lemma merge_delete_stale svcSnap svcName stale ip :
  ip ∈ (ServicesSnapshot_merge svcSnap svcName None stale).2
  ↔ ip ∈ stale ∨ udpClusterIP (default ∅ (svcSnap !! svcName)) ip.
Proof. apply staleLoop_range. Qed.

Lemma merge_other_key svcSnap svcName other stale K :
  K ≠ svcName →
  (ServicesSnapshot_merge svcSnap svcName other stale).1 !! K = svcSnap !! K.
Proof.
  intros Hne. destruct other; simpl.
  - by rewrite lookup_insert_ne.
  - by rewrite lookup_delete_ne.
Qed.

Lemma applyLoop_untouched l svcSnap stale K :
  K ∉ l.*1 → (applyLoop (svcSnap, stale) l).1 !! K = svcSnap !! K.
Proof.
  revert svcSnap stale. induction l as [|[k c] l IH]; intros svcSnap stale Hk; [done|].
  simpl in *. apply not_elem_of_cons in Hk as [Hne Hk].
  destruct (ServicesSnapshot_merge svcSnap k c stale) as [s1 st1] eqn:Hm.
  rewrite IH by done.
  change s1 with (s1, st1).1. rewrite <- Hm. by apply merge_other_key.
Qed.

Lemma applyLoop_changed l svcSnap stale K c :
  NoDup l.*1 → (K, c) ∈ l →
  (applyLoop (svcSnap, stale) l).1 !! K = c.
Proof.
  revert svcSnap stale. induction l as [|[k c'] l IH]; intros svcSnap stale Hnd Hin.
  - by apply elem_of_nil in Hin.
  - simpl in *. apply NoDup_cons in Hnd as [Hk Hnd].
    destruct (ServicesSnapshot_merge svcSnap k c' stale) as [s1 st1] eqn:Hm.
    apply elem_of_cons in Hin as [[= -> ->]|Hin].
    + rewrite applyLoop_untouched by done.
      destruct c'; simpl in Hm; injection Hm as <- <-.
      * by rewrite lookup_insert_eq.
      * by rewrite lookup_delete_eq.
    + by apply IH.
Qed.

Lemma applyLoop_stale l svcSnap stale ip :
  NoDup l.*1 →
  ip ∈ (applyLoop (svcSnap, stale) l).2
  ↔ ip ∈ stale ∨ ∃ K, (K, None) ∈ l ∧ udpClusterIP (default ∅ (svcSnap !! K)) ip.
Proof.
  revert svcSnap stale. induction l as [|[k c] l IH]; intros svcSnap stale Hnd.
  - simpl. split; [by left|]. intros [?|(K & Hin & _)]; [done|].
    by apply elem_of_nil in Hin.
  - simpl in *. apply NoDup_cons in Hnd as [Hk Hnd].
    destruct (ServicesSnapshot_merge svcSnap k c stale) as [s1 st1] eqn:Hm.
    rewrite IH by done.
    assert (Hs1 : ∀ K, K ∈ l.*1 → s1 !! K = svcSnap !! K).
    { intros K HK. change s1 with (s1, st1).1. rewrite <- Hm.
      apply merge_other_key. by intros ->. }
    assert (Hst1 : ip ∈ st1 ↔
              ip ∈ stale ∨ (c = None ∧ udpClusterIP (default ∅ (svcSnap !! k)) ip)).
    { change st1 with (s1, st1).2. rewrite <- Hm. destruct c; simpl.
      - split; [by left|]. by intros [?|[? _]].
      - rewrite staleLoop_range.
        split; [intros [?|?]; [by left|by right]|intros [?|[_ ?]]; [by left|by right]]. }
    rewrite Hst1. split.
    + intros [[?|[-> ?]]|(K & Hin & Hu)]; [by left| |].
      * right. exists k. split; [left|done].
      * right. exists K. split; [by right|].
        rewrite <- Hs1; [done|]. by apply (list_elem_of_fmap_2 fst _ (K, None)).
    + intros [?|(K & Hin & Hu)]; [by left; left|].
      apply elem_of_cons in Hin as [[= -> ->]|Hin]; [by left; right|].
      right. exists K. split; [done|].
      rewrite Hs1; [done|]. by apply (list_elem_of_fmap_2 fst _ (K, None)).
Qed.

(** What [apply] leaves in the snapshot, key by key. *)
Lemma apply_snapshot svcSnap changes stale K :
  (ServicesSnapshot_apply svcSnap changes stale).1.1 !! K
  = match items changes !! K with
    | Some c => c
    | None => svcSnap !! K
    end.
Proof.
  unfold ServicesSnapshot_apply. simpl.
  destruct (items changes !! K) as [c|] eqn:HK.
  - apply applyLoop_changed; [apply NoDup_fst_range|by apply elem_of_range].
  - apply applyLoop_untouched. intros ([k c] & -> & Hin)%list_elem_of_fmap.
    apply elem_of_range in Hin. simpl in *. congruence.
Qed.

Lemma apply_stale svcSnap changes stale ip :
  ip ∈ (ServicesSnapshot_apply svcSnap changes stale).2
  ↔ ip ∈ stale
    ∨ ∃ K, items changes !! K = Some None ∧ udpClusterIP (default ∅ (svcSnap !! K)) ip.
Proof.
  unfold ServicesSnapshot_apply. simpl.
  rewrite applyLoop_stale by apply NoDup_fst_range.
  by setoid_rewrite elem_of_range.
Qed.

Lemma apply_tracker svcSnap changes stale :
  (ServicesSnapshot_apply svcSnap changes stale).1.2 = with_items changes ∅.
Proof. reflexivity. Qed.

End Merge.

(** ** The scan that fills [HCServiceNodePorts] *)

Section Scan.
Context {R : MapRange}.

Lemma scanPorts_other K K' hc l : K ≠ K' → scanPorts K hc l !! K' = hc !! K'.
Proof.
  intros Hne. revert hc. induction l as [|[pn p] l IH]; intros hc; [done|].
  simpl. rewrite IH. destruct p as [b|i]; simpl; [done|].
  case_bool_decide; [by rewrite lookup_insert_ne|done].
Qed.

(** Either no port of the list wrote the entry of [K], or the entry is the
    value written for one of them. *)
Lemma scanPorts_same K hc l :
  (scanPorts K hc l !! K = hc !! K
   ∧ ∀ pn i, (pn, InfoPort i) ∈ l → healthCheckNodePort (base i) = 0)
  ∨ ∃ pn i, (pn, InfoPort i) ∈ l ∧ healthCheckNodePort (base i) ≠ 0
            ∧ scanPorts K hc l !! K = Some (uint16 (healthCheckNodePort (base i))).
Proof.
  revert hc. induction l as [|[pn p] l IH]; intros hc.
  - left. split; [done|]. intros pn i Hin. by apply elem_of_nil in Hin.
  - simpl. destruct p as [b|i]; simpl.
    + destruct (IH hc) as [[Heq Hall]|(pn' & i' & Hin & Hnz & Heq)].
      * left. split; [done|]. intros pn' i' [[=]|Hin]%elem_of_cons. by eapply Hall.
      * right. exists pn', i'. split; [by right|done].
    + case_bool_decide as Hnz.
      * destruct (IH (<[K := uint16 (healthCheckNodePort (base i))]> hc))
          as [[Heq Hall]|(pn' & i' & Hin & Hnz' & Heq)].
        -- right. exists pn, i. split; [left|]. split; [done|].
           by rewrite Heq, lookup_insert_eq.
        -- right. exists pn', i'. split; [by right|done].
      * destruct (IH hc) as [[Heq Hall]|(pn' & i' & Hin & Hnz' & Heq)].
        -- left. split; [done|]. intros pn' i' [[= -> ->]|Hin]%elem_of_cons.
           ++ destruct (decide (healthCheckNodePort (base i) = 0)); [done|].
              by destruct Hnz.
           ++ by eapply Hall.
        -- right. exists pn', i'. split; [by right|done].
Qed.

Lemma scanPorts_congr K hc hc' l :
  hc !! K = hc' !! K → scanPorts K hc l !! K = scanPorts K hc' l !! K.
Proof.
  revert hc hc'. induction l as [|[pn p] l IH]; intros hc hc' Heq; [done|].
  simpl. apply IH. destruct p as [b|i]; simpl; [done|].
  case_bool_decide; [by rewrite !lookup_insert_eq|done].
Qed.

Lemma scanLoop_untouched l hc K : K ∉ l.*1 → scanLoop hc l !! K = hc !! K.
Proof.
  revert hc. induction l as [|[k m] l IH]; intros hc Hk; [done|].
  simpl in *. apply not_elem_of_cons in Hk as [Hne Hk].
  rewrite IH by done. by apply scanPorts_other.
Qed.

Lemma scanLoop_visited l hc K m :
  NoDup l.*1 → (K, m) ∈ l → scanLoop hc l !! K = scanPorts K hc (range m) !! K.
Proof.
  revert hc. induction l as [|[k m'] l IH]; intros hc Hnd Hin.
  - by apply elem_of_nil in Hin.
  - simpl in *. apply NoDup_cons in Hnd as [Hk Hnd].
    apply elem_of_cons in Hin as [[= -> ->]|Hin].
    + by apply scanLoop_untouched.
    + rewrite IH by done. apply scanPorts_congr, scanPorts_other.
      intros ->. apply Hk. by apply (list_elem_of_fmap_2 fst _ (K, m)).
Qed.

(** Every entry of the table is the health-check node port of a
    [serviceInfo] port stored under its key. *)
Lemma scanSnapshot_sound (svcSnap : ServicesSnapshot) K v :
  scanSnapshot svcSnap !! K = Some v →
  ∃ m, svcSnap !! K = Some m ∧ declaresHealthCheck m v.
Proof.
  unfold scanSnapshot. intros Hv.
  destruct (svcSnap !! K) as [m|] eqn:HK.
  - exists m. split; [done|].
    rewrite (scanLoop_visited _ _ K m) in Hv;
      [|apply NoDup_fst_range|by apply elem_of_range].
    destruct (scanPorts_same K ∅ (range m))
      as [[Heq _]|(pn & i & Hin & Hnz & Heq)].
    + by rewrite Heq in Hv.
    + exists pn, i. apply elem_of_range in Hin. split_and!; [done..|congruence].
  - rewrite scanLoop_untouched in Hv; [done|].
    intros ([k m] & -> & Hin)%list_elem_of_fmap.
    apply elem_of_range in Hin. simpl in *. congruence.
Qed.

(** A key that stores a [serviceInfo] port with a non-zero health-check
    node port has an entry. *)
Lemma scanSnapshot_complete (svcSnap : ServicesSnapshot) K m pn i :
  svcSnap !! K = Some m → m !! pn = Some (InfoPort i) →
  healthCheckNodePort (base i) ≠ 0 →
  is_Some (scanSnapshot svcSnap !! K).
Proof.
  unfold scanSnapshot. intros HK Hpn Hnz.
  rewrite (scanLoop_visited _ _ K m); [|apply NoDup_fst_range|by apply elem_of_range].
  destruct (scanPorts_same K ∅ (range m))
    as [[_ Hall]|(pn' & i' & _ & _ & Heq)].
  - destruct Hnz. apply (Hall pn). by apply elem_of_range.
  - by rewrite Heq.
Qed.

End Scan.

(** ** [ServicesSnapshot.Update] in terms of [apply] and the scan *)

Section Update.
Context {E : Externals} {R : MapRange}.

Lemma Update_snapshot svcSnap changes :
  (ServicesSnapshot_Update svcSnap changes).1.1
  = (ServicesSnapshot_apply svcSnap changes ∅).1.1.
Proof.
  unfold ServicesSnapshot_Update.
  by destruct (ServicesSnapshot_apply svcSnap changes ∅) as [[? ?] ?].
Qed.

Lemma Update_tracker svcSnap changes :
  (ServicesSnapshot_Update svcSnap changes).1.2 = with_items changes ∅.
Proof.
  unfold ServicesSnapshot_Update.
  rewrite <- (apply_tracker svcSnap changes ∅).
  by destruct (ServicesSnapshot_apply svcSnap changes ∅) as [[? ?] ?].
Qed.

Lemma Update_stale svcSnap changes :
  UDPStaleClusterIP (ServicesSnapshot_Update svcSnap changes).2
  = (ServicesSnapshot_apply svcSnap changes ∅).2.
Proof.
  unfold ServicesSnapshot_Update.
  by destruct (ServicesSnapshot_apply svcSnap changes ∅) as [[? ?] ?].
Qed.

Lemma Update_healthcheck svcSnap changes :
  HCServiceNodePorts (ServicesSnapshot_Update svcSnap changes).2
  = scanSnapshot (ServicesSnapshot_Update svcSnap changes).1.1.
Proof.
  unfold ServicesSnapshot_Update.
  by destruct (ServicesSnapshot_apply svcSnap changes ∅) as [[? ?] ?].
Qed.

Lemma Update_snapshot_lookup svcSnap changes K :
  (ServicesSnapshot_Update svcSnap changes).1.1 !! K
  = match items changes !! K with
    | Some c => c
    | None => svcSnap !! K
    end.
Proof. rewrite Update_snapshot. apply apply_snapshot. Qed.

Lemma Update_stale_elem svcSnap changes ip :
  ip ∈ UDPStaleClusterIP (ServicesSnapshot_Update svcSnap changes).2
  ↔ ∃ K, items changes !! K = Some None ∧ udpClusterIP (default ∅ (svcSnap !! K)) ip.
Proof.
  rewrite Update_stale, apply_stale. split; [|by right].
  intros [Hin|?]; [|done]. by apply not_elem_of_empty in Hin.
Qed.

(** The port set the tracker materializes depends on the tracker's family
    and adapter only. *)
Lemma serviceToServiceMap_with_items sct its service :
  serviceToServiceMap (with_items sct its) service = serviceToServiceMap sct service.
Proof. reflexivity. Qed.

Lemma serviceToServiceMap_step_non_empty sct service m p :
  serviceToServiceMap_step sct service m p ≠ ∅.
Proof.
  unfold serviceToServiceMap_step. destruct (makeServiceInfo sct); apply insert_non_empty.
Qed.

Lemma serviceToServiceMap_loop_non_empty sct service l m :
  l ≠ [] ∨ m ≠ ∅ → foldl (serviceToServiceMap_step sct service) m l ≠ ∅.
Proof.
  revert m. induction l as [|p l IH]; intros m Hne; simpl.
  - by destruct Hne.
  - apply IH. right. apply serviceToServiceMap_step_non_empty.
Qed.

Lemma eqb_empty_string (s : string) : String.eqb s "" = true ↔ s = "".
Proof. apply String.eqb_eq. Qed.

Lemma serviceToServiceMap_empty_iff sct S :
  serviceToServiceMap sct (Some S) = ∅
  ↔ GetClusterIPByFamily (ipFamily sct) S = "" ∨ Ports S = [].
Proof.
  unfold serviceToServiceMap.
  destruct (String.eqb (GetClusterIPByFamily (ipFamily sct) S) "") eqn:Heq.
  - apply eqb_empty_string in Heq. split; [by left|done].
  - assert (GetClusterIPByFamily (ipFamily sct) S ≠ "") as Hne.
    { intros Hs%eqb_empty_string. congruence. }
    split.
    + intros Hempty. right. destruct (Ports S) as [|p l] eqn:HP; [done|].
      exfalso. revert Hempty. apply serviceToServiceMap_loop_non_empty. by left.
    + intros [?|HP]; [done|]. by rewrite HP.
Qed.

(** No port that the tracker materializes, as a base port or through
    [newServiceInfo], has a health-check node port: the constructor leaves
    the field at zero. *)
Lemma serviceToServiceMap_healthcheck_zero sct S pn p :
  makeServiceInfo sct = None ∨ makeServiceInfo sct = Some newServiceInfo →
  serviceToServiceMap sct (Some S) !! pn = Some p →
  HealthCheckNodePort p = 0.
Proof.
  intros Hmk. unfold serviceToServiceMap.
  destruct (String.eqb (GetClusterIPByFamily (ipFamily sct) S) ""); [done|].
  assert (Hloop : ∀ l (m : serviceChange),
            (∀ pn p, m !! pn = Some p → HealthCheckNodePort p = 0) →
            ∀ pn p, foldl (serviceToServiceMap_step sct S) m l !! pn = Some p →
                    HealthCheckNodePort p = 0).
  { induction l as [|pm l IH]; intros m Hm pn' p'; simpl; [apply Hm|].
    apply IH. intros pn'' p''. unfold serviceToServiceMap_step.
    destruct Hmk as [-> | ->]; intros [[_ <-]|[_ ?]]%lookup_insert_Some;
      (done || by eapply Hm). }
  apply Hloop. intros pn' p'. by rewrite lookup_empty.
Qed.

End Update.

(** * The claims *)

Import Scenario.

(** C1: a pending change that is a non-nil mapping replaces the port set
    under its key and reports nothing: [merge] returns the set of stale
    UDP cluster IPs as it received it, for every snapshot, key, mapping and
    set.  At the snapshot that stores the UDP port of a/b on 10.0.0.1 and
    the change that moves the service to 10.0.0.2, the address 10.0.0.1 is a
    UDP cluster IP of the pre-image and of no port of the post-image, and
    the set of stale addresses stays empty: both [merge] alone and the
    second apply of update, apply, update, apply report no address. *)
Theorem merge_replace_reports_no_stale_ip :
  (∀ (E : Externals) (R : MapRange) (svcSnap : ServicesSnapshot) K
     (other : serviceChange) (stale : gset string),
     ServicesSnapshot_merge svcSnap K (Some other) stale
     = (<[K := other]> svcSnap, stale))
  ∧ (let E := IPv4Literals.externals in
     let R := trieOrder in
     let pre := serviceToServiceMap v4Tracker (Some dnsService) in
     let post := serviceToServiceMap v4Tracker (Some dnsServiceMoved) in
     udpClusterIP pre "10.0.0.1"
     ∧ ¬ udpClusterIP post "10.0.0.1"
     ∧ (ServicesSnapshot_merge {[ key_ab := pre ]} key_ab (Some post) ∅).2 = ∅
     ∧ updateApplyUpdateApply v4Tracker ∅ dnsService dnsServiceMoved
       = Returns {| HCServiceNodePorts := ∅; UDPStaleClusterIP := ∅ |}).
Proof.
  split; [reflexivity|]. intros E R pre post. split_and!.
  - exists (name_p UDP),
      (BasePort (newBaseServiceInfo v4Tracker (portMapping "p" UDP 53) dnsService)).
    split_and!; [apply lookup_insert_eq|reflexivity|vm_compute; reflexivity].
  - intros (pn & p & Hp & Hudp & Hip).
    assert (post = {[ name_p UDP :=
              BasePort (newBaseServiceInfo v4Tracker (portMapping "p" UDP 53)
                          dnsServiceMoved) ]}) as Hpost by reflexivity.
    rewrite Hpost in Hp. apply lookup_singleton_Some in Hp as [_ <-].
    vm_compute in Hip. discriminate.
  - reflexivity.
  - by vm_compute.
Qed.

(** C2: the change that is an empty mapping is not treated as the nil
    sentinel.  For every snapshot, key and set of stale addresses, [merge]
    with a non-nil pointer to an empty mapping takes the replacement
    branch: the key stays in the snapshot, bound to the empty port set, and
    the set of stale addresses is returned as it was received, where the
    nil sentinel removes the key.  The tracker stores such a change for a
    service that has no cluster IP of its family.  After update of a/b with
    its UDP port on 10.0.0.1, apply, update of a/b without a cluster IP,
    apply: the key a/b is still in the snapshot and no address is reported,
    though the UDP port on 10.0.0.1 is no longer stored. *)
Theorem merge_empty_mapping_is_replacement :
  (∀ (E : Externals) (R : MapRange) (svcSnap : ServicesSnapshot) K
     (stale : gset string),
     ServicesSnapshot_merge svcSnap K (Some ∅) stale = (<[K := ∅]> svcSnap, stale)
     ∧ (ServicesSnapshot_merge svcSnap K (Some ∅) stale).1 !! K = Some ∅
     ∧ (ServicesSnapshot_merge svcSnap K None stale).1 !! K = None
     ∧ ((ServicesSnapshot_merge svcSnap K (Some ∅) stale).1
        ≠ (ServicesSnapshot_merge svcSnap K None stale).1))
  ∧ (let E := IPv4Literals.externals in
     let R := trieOrder in
     let pre := serviceToServiceMap v4Tracker (Some dnsService) in
     storesUDP pre "10.0.0.1"
     ∧ ServiceChangeTracker_Update v4Tracker (Some dnsServiceUnassigned)
       = Returns (with_items v4Tracker {[ key_ab := Some ∅ ]}, true)
     ∧ ServicesSnapshot_merge {[ key_ab := pre ]} key_ab (Some ∅) ∅
       = ({[ key_ab := ∅ ]}, ∅)
     ∧ session [Track (CallUpdate (Some dnsService)); Sync;
                Track (CallUpdate (Some dnsServiceUnassigned)); Sync]
         ∅ v4Tracker None
       = Returns ({[ key_ab := ∅ ]}, v4Tracker,
                  Some {| HCServiceNodePorts := ∅; UDPStaleClusterIP := ∅ |})).
Proof.
  split.
  - intros E R svcSnap K stale. split_and!.
    + reflexivity.
    + simpl. apply lookup_insert_eq.
    + simpl. apply lookup_delete_eq.
    + intros Heq. apply (f_equal (λ m : ServicesSnapshot, m !! K)) in Heq.
      simpl in Heq. by rewrite lookup_insert_eq, lookup_delete_eq in Heq.
  - intros E R pre. split_and!.
    + exists (name_p UDP),
        (BasePort (newBaseServiceInfo v4Tracker (portMapping "p" UDP 53) dnsService)).
      split_and!; [apply lookup_insert_eq|reflexivity|vm_compute; reflexivity].
    + reflexivity.
    + unfold pre. simpl. by rewrite insert_singleton_eq.
    + by vm_compute.
Qed.

Section UpdateThenDelete.
Context {E : Externals} {R : MapRange}.

Lemma Update_fresh mk fam S :
  let sct := NewServiceChangeTracker mk fam in
  ServiceChangeTracker_Update sct (Some S)
  = Returns (with_items sct {[ (Namespace S, Name S) := Some (serviceToServiceMap sct (Some S)) ]},
             true).
Proof.
  intros sct. unfold ServiceChangeTracker_Update.
  change (items sct) with (∅ : gmap NamespacedName (option serviceChange)).
  rewrite lookup_empty, insert_empty, map_size_singleton. reflexivity.
Qed.

Lemma Delete_tracker sct namespace name :
  (ServiceChangeTracker_Delete sct namespace name).1
  = with_items sct (<[(namespace, name) := None]> (items sct)).
Proof. reflexivity. Qed.

Lemma updateApplyDeleteApply_fresh mk fam svcSnap S :
  let sct := NewServiceChangeTracker mk fam in
  let K : NamespacedName := (Namespace S, Name S) in
  let m := serviceToServiceMap sct (Some S) in
  ∃ snap2 res1 res2,
    updateApplyDeleteApply sct svcSnap S = Returns (snap2, res1, res2)
    ∧ snap2 !! K = None
    ∧ UDPStaleClusterIP res1 = ∅
    ∧ ∀ ip, ip ∈ UDPStaleClusterIP res2 ↔ udpClusterIP m ip.
Proof.
  intros sct K m. unfold updateApplyDeleteApply.
  pose proof (Update_fresh mk fam S) as Hup. cbv zeta in Hup. fold sct K m in Hup.
  rewrite Hup. cbv beta iota zeta. fold K.
  pose (sct1 := with_items sct {[ K := Some m ]}).
  change (with_items sct {[ K := Some m ]}) with sct1.
  assert (Hitems1 : items sct1 = {[ K := Some m ]}) by reflexivity.
  assert (Hsnap1 : (ServicesSnapshot_Update svcSnap sct1).1.1 !! K = Some m).
  { by rewrite Update_snapshot_lookup, Hitems1, lookup_singleton_eq. }
  pose (sct3 := with_items sct {[ K := None ]}).
  assert (Hitems3 : items sct3 = {[ K := None ]}) by reflexivity.
  assert (Hdel : (ServiceChangeTracker_Delete
                    (ServicesSnapshot_Update svcSnap sct1).1.2 (Namespace S) (Name S)).1
                 = sct3) by (rewrite Update_tracker; reflexivity).
  rewrite Hdel.
  eexists _, _, _. split; [reflexivity|].
  split_and!.
  - rewrite Update_snapshot_lookup, Hitems3. by rewrite lookup_singleton_eq.
  - apply set_eq. intros ip. rewrite Update_stale_elem.
    split; [|by intros ?%not_elem_of_empty].
    intros (K' & HK' & _). rewrite Hitems1 in HK'.
    by apply lookup_singleton_Some in HK' as [_ ?].
  - intros ip. rewrite Update_stale_elem, Hitems3. split.
    + intros (K' & [<- _]%lookup_singleton_Some & Hu). by rewrite Hsnap1 in Hu.
    + intros Hu. exists K. split; [apply lookup_singleton_eq|]. by rewrite Hsnap1.
Qed.

End UpdateThenDelete.

Section ProtobufProtocol.
Variable num : Protocol → Z.
Variable E : Externals.
Context {R : MapRange}.

Lemma byte_inj (b c : Z) : 0 ≤ b < 256 → 0 ≤ c < 256 → byte b = byte c → b = c.
Proof.
  intros Hb Hc Heq. unfold byte in Heq.
  apply (f_equal N_of_ascii) in Heq.
  rewrite !N_ascii_embedding in Heq by lia. lia.
Qed.

(** No conversion of an integer gives the text "UDP": the encoding of a
    code point in three bytes starts with a byte of 224 at least. *)
Lemma runeString_not_UDP (r : Z) : runeString r ≠ ProtocolUDP.
Proof.
  unfold runeString, ProtocolUDP.
  destruct ((0 <=? r) && (r <? 128)); [done|].
  destruct ((0 <=? r) && (r <? 2048)); [done|].
  destruct ((r <? 0) || (1114111 <? r) || ((55296 <=? r) && (r <=? 57343))) eqn:Hbad;
    [done|].
  destruct (Z.ltb_spec r 65536) as [Hlt|Hge]; [|done].
  apply orb_false_iff in Hbad as [[Hneg _]%orb_false_iff _].
  apply Z.ltb_ge in Hneg.
  intros [= Hfirst _].
  assert (0 ≤ r / 4096 < 16).
  { split; [by apply Z.div_pos|]. apply Z.div_lt_upper_bound; lia. }
  apply (byte_inj _ 85) in Hfirst; lia.
Qed.

Lemma protobuf_isUDP (p : ServicePort) : isUDP (E := protobufExternals num E) p = false.
Proof.
  unfold isUDP. simpl. apply String.eqb_neq, runeString_not_UDP.
Qed.

Lemma protobuf_udpClusterIP (m : serviceChange) (ip : string) :
  ¬ udpClusterIP (E := protobufExternals num E) m ip.
Proof. intros (pn & p & _ & Hu & _). by rewrite protobuf_isUDP in Hu. Qed.

Lemma protobuf_Update_stale svcSnap changes :
  UDPStaleClusterIP
    (ServicesSnapshot_Update (E := protobufExternals num E) svcSnap changes).2 = ∅.
Proof.
  apply set_eq. intros ip. rewrite Update_stale_elem.
  split; [|by intros ?%not_elem_of_empty].
  intros (K & _ & Hu). by apply protobuf_udpClusterIP in Hu.
Qed.

End ProtobufProtocol.

(** C3: update of S, apply, delete of S, apply never reports the UDP
    cluster IP of S.  From a fresh tracker (any family, any adapter) and
    any snapshot the sequence returns and leaves no entry under
    (S.ns, S.name); the first apply reports nothing and the second reports
    exactly the cluster IPs of the ports materialized for S on which the
    test [string(svcInfo.Protocol()) == string(v1.ProtocolUDP)] holds.  The
    protocol of the API being an enum of protoc-gen-go, the conversion is
    that of its number, whichever it is, to the string of one code point,
    on which the test never holds: no apply ever reports an address.  For
    a/b with one UDP port on 10.0.0.1 the materialized port has protocol UDP
    and its cluster IP prints as 10.0.0.1, and the second apply yields the
    empty set where {"10.0.0.1"} is expected. *)
Theorem update_apply_delete_apply_reports_nothing :
  (∀ (E : Externals) (R : MapRange) mk fam (svcSnap : ServicesSnapshot) (S : Service),
     let sct := NewServiceChangeTracker mk fam in
     ∃ snap2 res1 res2,
       updateApplyDeleteApply sct svcSnap S = Returns (snap2, res1, res2)
       ∧ snap2 !! (Namespace S, Name S) = None
       ∧ UDPStaleClusterIP res1 = ∅
       ∧ (∀ ip, ip ∈ UDPStaleClusterIP res2
                ↔ udpClusterIP (serviceToServiceMap sct (Some S)) ip))
  ∧ (∀ (num : Protocol → Z) (E : Externals) (R : MapRange),
       (∀ p : ServicePort, isUDP (E := protobufExternals num E) p = false)
       ∧ (∀ svcSnap changes,
            UDPStaleClusterIP
              (ServicesSnapshot_Update (E := protobufExternals num E) svcSnap changes).2
            = ∅)
       ∧ (∀ mk fam (svcSnap : ServicesSnapshot) (S : Service),
            ∃ snap2 res1 res2,
              updateApplyDeleteApply (E := protobufExternals num E)
                (NewServiceChangeTracker mk fam) svcSnap S
              = Returns (snap2, res1, res2)
              ∧ snap2 !! (Namespace S, Name S) = None
              ∧ UDPStaleClusterIP res1 = ∅
              ∧ UDPStaleClusterIP res2 = ∅))
  ∧ (∀ (num : Protocol → Z) (R : MapRange),
       storesUDP (E := protobufExternals num IPv4Literals.externals)
         (serviceToServiceMap (E := protobufExternals num IPv4Literals.externals)
            v4Tracker (Some dnsService)) "10.0.0.1"
       ∧ ∃ snap2 res1 res2,
           updateApplyDeleteApply (E := protobufExternals num IPv4Literals.externals)
             v4Tracker ∅ dnsService
           = Returns (snap2, res1, res2)
           ∧ UDPStaleClusterIP res2 = ∅
           ∧ UDPStaleClusterIP res2 ≠ {[ "10.0.0.1" ]}).
Proof.
  split_and!.
  - intros E R mk fam svcSnap S sct.
    apply (updateApplyDeleteApply_fresh mk fam svcSnap S).
  - intros num E R. split_and!.
    + apply protobuf_isUDP.
    + apply protobuf_Update_stale.
    + intros mk fam svcSnap S.
      destruct (updateApplyDeleteApply_fresh (E := protobufExternals num E)
                  mk fam svcSnap S)
        as (snap2 & res1 & res2 & Hret & Hgone & Hfirst & Hsecond).
      exists snap2, res1, res2. split_and!; [done..|].
      apply set_eq. intros ip. rewrite Hsecond.
      split; [by intros ?%protobuf_udpClusterIP|by intros ?%not_elem_of_empty].
  - intros num R. split.
    + exists (name_p UDP),
        (BasePort (newBaseServiceInfo (E := protobufExternals num IPv4Literals.externals)
                     v4Tracker (portMapping "p" UDP 53) dnsService)).
      split_and!; [apply lookup_insert_eq|reflexivity|vm_compute; reflexivity].
    + destruct (updateApplyDeleteApply_fresh
                  (E := protobufExternals num IPv4Literals.externals)
                  None IPv4Protocol ∅ dnsService)
        as (snap2 & res1 & res2 & Hret & _ & _ & Hsecond).
      assert (Hempty : UDPStaleClusterIP res2 = ∅).
      { apply set_eq. intros ip. rewrite Hsecond.
        split; [by intros ?%protobuf_udpClusterIP|by intros ?%not_elem_of_empty]. }
      exists snap2, res1, res2. split_and!; [done..|].
      rewrite Hempty. intros Heq.
      assert (Hin : "10.0.0.1" ∈ (∅ : gset string))
        by (rewrite Heq; by apply elem_of_singleton).
      by apply not_elem_of_empty in Hin.
Qed.

Section HealthCheckTable.
Context {E : Externals} {R : MapRange}.

Lemma scanSnapshot_exact (svcSnap : ServicesSnapshot) :
  probeConsistent svcSnap → healthCheckTableExact svcSnap (scanSnapshot svcSnap).
Proof.
  intros Hc K v. split.
  - intros Hv.
    apply scanSnapshot_sound in Hv as (m & Hm & pn & i & Hpn & Hnz & ->).
    exists m, pn, (InfoPort i). split_and!; [done..|].
    destruct (Hc K m pn (InfoPort i) Hm Hpn Hnz) as (_ & Hr & _).
    unfold HealthCheckNodePort in *. simpl in *.
    unfold uint16. rewrite Z.mod_small; [done|lia].
  - intros (m & pn & p & Hm & Hpn & Hnz & ->).
    destruct (Hc K m pn p Hm Hpn Hnz) as ([i ->] & Hr & Hsame).
    destruct (scanSnapshot_complete svcSnap K m pn i Hm Hpn Hnz) as [v Hv].
    rewrite Hv. f_equal.
    apply scanSnapshot_sound in Hv as (m' & Hm' & pn' & i' & Hpn' & Hnz' & ->).
    assert (m' = m) as -> by congruence.
    specialize (Hsame pn' (InfoPort i') Hpn' Hnz').
    unfold HealthCheckNodePort in *. simpl in *.
    unfold uint16. rewrite Hsame, Z.mod_small; [done|lia].
Qed.

Lemma healthCheckTableExact_unique (svcSnap : ServicesSnapshot)
    (hc hc' : gmap NamespacedName Z) :
  healthCheckTableExact svcSnap hc → healthCheckTableExact svcSnap hc' → hc = hc'.
Proof.
  intros H1 H2. apply map_eq. intros K. apply option_eq. intros v.
  by rewrite (H1 K v), (H2 K v).
Qed.

End HealthCheckTable.

(** C5 fails as stated: the ExternalName service a/b that carries the
    cluster IP 10.0.0.1 is skippable, and the v4 tracker materializes a
    port set for it that is not empty. *)
Lemma skippable_service_materialized :
  let E := IPv4Literals.externals in
  ¬ (ShouldSkipService externalNameService = true →
     serviceToServiceMap v4Tracker (Some externalNameService) = ∅).
Proof.
  intros E Himp. specialize (Himp eq_refl).
  apply serviceToServiceMap_empty_iff in Himp as [Hip|Hports]; discriminate.
Qed.

(** C5, amended: a Service is skippable exactly when its cluster IP set is
    empty or its type is ExternalName.  The tracker does not consult the
    type: it materializes the empty ServiceChange exactly when the service
    has no cluster IP of the tracker's family or has no port; so it does for
    every service whose cluster IP set is empty. *)
Theorem skippable_and_materialized :
  ∀ (E : Externals) (sct : ServiceChangeTracker) (S : Service),
    (ShouldSkipService S = true
     ↔ (V4 (ClusterIPs (IPs S)) = [] ∧ V6 (ClusterIPs (IPs S)) = [])
       ∨ Type_ S = ServiceTypeExternalName)
    ∧ (serviceToServiceMap sct (Some S) = ∅
       ↔ GetClusterIPByFamily (ipFamily sct) S = "" ∨ Ports S = [])
    ∧ (V4 (ClusterIPs (IPs S)) = [] ∧ V6 (ClusterIPs (IPs S)) = [] →
       serviceToServiceMap sct (Some S) = ∅).
Proof.
  intros E sct S. split_and!.
  - unfold ShouldSkipService, IsServiceIPSet.
    destruct (V4 (ClusterIPs (IPs S))) as [|a l4], (V6 (ClusterIPs (IPs S))) as [|b l6];
      simpl.
    + split; [by left; split|done].
    + destruct (String.eqb (Type_ S) ServiceTypeExternalName) eqn:Ht.
      * apply String.eqb_eq in Ht. split; [by right|done].
      * apply String.eqb_neq in Ht. split; [done|]. by intros [[_ ?]|?].
    + destruct (String.eqb (Type_ S) ServiceTypeExternalName) eqn:Ht.
      * apply String.eqb_eq in Ht. split; [by right|done].
      * apply String.eqb_neq in Ht. split; [done|]. by intros [[? _]|?].
    + destruct (String.eqb (Type_ S) ServiceTypeExternalName) eqn:Ht.
      * apply String.eqb_eq in Ht. split; [by right|done].
      * apply String.eqb_neq in Ht. split; [done|]. by intros [[? _]|?].
  - apply serviceToServiceMap_empty_iff.
  - intros [H4 H6]. apply serviceToServiceMap_empty_iff. left.
    unfold GetClusterIPByFamily. rewrite H4, H6. by destruct (ipFamily sct).
Qed.

(** A headless service: no cluster IP, one port. *)
Lemma skippable_and_materialized_witness :
  serviceToServiceMap (E := IPv4Literals.externals) v4Tracker
    (Some (service_ab "" [] [portMapping "p" TCP 80])) = ∅.
Proof.
  apply (proj2 (proj2 (skippable_and_materialized IPv4Literals.externals v4Tracker
                         (service_ab "" [] [portMapping "p" TCP 80])))).
  split; reflexivity.
Defined.

(** C6: [apply] replaces the pending map by a fresh empty map, so the
    tracker has no pending change after [ServicesSnapshot.Update] returns,
    whatever the snapshot and the tracker were; in particular after every
    sequence of [Update] and [Delete] calls that ran to its end. *)
Theorem apply_clears_pending :
  ∀ (E : Externals) (R : MapRange),
    (∀ (svcSnap : ServicesSnapshot) (sct : ServiceChangeTracker),
       items (ServicesSnapshot_Update svcSnap sct).1.2 = ∅)
    ∧ (∀ (cs : list trackerCall) (sct0 sct : ServiceChangeTracker)
         (svcSnap : ServicesSnapshot),
         calls cs sct0 = Returns sct →
         items (ServicesSnapshot_Update svcSnap sct).1.2 = ∅).
Proof.
  intros E R.
  assert (Hclear : ∀ (svcSnap : ServicesSnapshot) (sct : ServiceChangeTracker),
             items (ServicesSnapshot_Update svcSnap sct).1.2 = ∅).
  { intros svcSnap sct. by rewrite Update_tracker. }
  split; [exact Hclear|]. intros cs sct0 sct svcSnap _. apply Hclear.
Qed.

(** Update a/b, delete c/d, then apply. *)
Lemma apply_clears_pending_witness :
  let E := IPv4Literals.externals in
  let sct := with_items v4Tracker
               (<[("c", "d") := None]>
                  (<[key_ab := Some (serviceToServiceMap v4Tracker (Some dnsService))]> ∅)) in
  items sct ≠ ∅
  ∧ items (ServicesSnapshot_Update (R := trieOrder) ∅ sct).1.2 = ∅.
Proof.
  intros E sct. split; [apply insert_non_empty|].
  apply (proj2 (apply_clears_pending E trieOrder)
           [CallUpdate (Some dnsService); CallDelete "c" "d"] v4Tracker).
  reflexivity.
Defined.

Section TrackerUpdate.
Context {E : Externals}.

Lemma Update_returns sct S :
  items sct !! ((Namespace S, Name S) : NamespacedName) ≠ Some None →
  ServiceChangeTracker_Update sct (Some S)
  = Returns (with_items sct (<[((Namespace S, Name S) : NamespacedName) :=
                                 Some (serviceToServiceMap sct (Some S))]> (items sct)),
             true).
Proof.
  intros Hk. unfold ServiceChangeTracker_Update. cbv zeta.
  assert (Hsize : (0 < size (<[((Namespace S, Name S) : NamespacedName) :=
                               Some (serviceToServiceMap sct (Some S))]> (items sct)))%nat).
  { destruct (size (<[((Namespace S, Name S) : NamespacedName) :=
                        Some (serviceToServiceMap sct (Some S))]> (items sct))) eqn:Hs;
      [|lia].
    apply map_size_empty_inv in Hs. by apply insert_non_empty in Hs. }
  destruct (items sct !! ((Namespace S, Name S) : NamespacedName)) as [[c'|]|]; [|done|];
    do 2 f_equal; by apply bool_decide_eq_true_2.
Qed.

End TrackerUpdate.

(** C7: [Update] does not overwrite every prior pending entry.  On a
    tracker whose pending entry for the service is the nil sentinel that
    [Delete] stores, [Update] finds the key, dereferences the nil pointer
    and panics; this is the only case in which it panics.  Whenever
    [Update(S)] returns, it has stored the recomputed port set under
    (namespace, name) and a second [Update(S)] returns the same tracker and
    the same flag. *)
Theorem update_after_delete_panics :
  ∀ (E : Externals) (sct : ServiceChangeTracker) (S : Service),
    ServiceChangeTracker_Update
      (ServiceChangeTracker_Delete sct (Namespace S) (Name S)).1 (Some S)
    = Panics NilPointerDereference
    ∧ match ServiceChangeTracker_Update sct (Some S) with
      | Panics p =>
          p = NilPointerDereference ∧ items sct !! ((Namespace S, Name S) : NamespacedName) = Some None
      | Returns (sct1, b) =>
          items sct1 !! ((Namespace S, Name S) : NamespacedName) = Some (Some (serviceToServiceMap sct (Some S)))
          ∧ ServiceChangeTracker_Update sct1 (Some S) = Returns (sct1, b)
      end.
Proof.
  intros E sct S. split.
  - unfold ServiceChangeTracker_Update, ServiceChangeTracker_Delete. simpl.
    by rewrite lookup_insert_eq.
  - assert (Hret : items sct !! ((Namespace S, Name S) : NamespacedName) ≠ Some None →
        match ServiceChangeTracker_Update sct (Some S) with
        | Panics p =>
            p = NilPointerDereference
            ∧ items sct !! ((Namespace S, Name S) : NamespacedName) = Some None
        | Returns (sct1, b) =>
            items sct1 !! ((Namespace S, Name S) : NamespacedName)
            = Some (Some (serviceToServiceMap sct (Some S)))
            ∧ ServiceChangeTracker_Update sct1 (Some S) = Returns (sct1, b)
        end).
    { intros Hk. rewrite (Update_returns sct S Hk). split.
      - simpl. by rewrite lookup_insert_eq.
      - rewrite (Update_returns _ S).
        + simpl. rewrite insert_insert_eq. reflexivity.
        + simpl. by rewrite lookup_insert_eq. }
    destruct (items sct !! ((Namespace S, Name S) : NamespacedName)) as [[c|]|] eqn:Hk.
    + by apply Hret.
    + unfold ServiceChangeTracker_Update. by rewrite Hk.
    + by apply Hret.
Qed.

(** C10: [Update] with a nil service returns false and the tracker it was
    given, pending map included, whatever the pending map holds. *)
Theorem update_nil_service_is_noop :
  ∀ (E : Externals) (sct : ServiceChangeTracker),
    ServiceChangeTracker_Update sct None = Returns (sct, false).
Proof. reflexivity. Qed.

(** ** The bounded-frequency runner *)

Section RunnerProperties.
Context {Fn : Type}.

Lemma Time_Sub_bounds (t u : Time) : minDuration ≤ Time_Sub t u ≤ maxDuration.
Proof.
  unfold Time_Sub, minDuration, maxDuration.
  repeat case_match; lia.
Qed.

(** [Sub] is monotone in its first argument, so a strictly smaller
    difference comes from a strictly earlier instant. *)
Lemma Time_Sub_lt (t t' u : Time) : Time_Sub t u < Time_Sub t' u → t < t'.
Proof.
  unfold Time_Sub, minDuration, maxDuration.
  repeat case_match; lia.
Qed.

(** Adding the saturated difference to the clock never overshoots a
    deadline whose own difference is larger. *)
Lemma Time_Add_Sub_lt (t t' u : Time) :
  Time_Sub t u < Time_Sub t' u → Time_Add u (Time_Sub t u) < t'.
Proof.
  unfold Time_Add, Time_Sub, minDuration, maxDuration.
  repeat case_match; lia.
Qed.

Lemma Time_Sub_lt_diff (d : Duration) (t u : Time) :
  minDuration ≤ d → d < Time_Sub t u → u + d < t.
Proof.
  unfold Time_Sub, minDuration, maxDuration.
  repeat case_match; lia.
Qed.

Lemma doRetry_timer (lapse1 lapse2 : Duration) (bfr : BoundedFrequencyRunner Fn) :
  timer_ (doRetry lapse1 lapse2 bfr)
  = if retryResets lapse1 bfr
    then timer_Reset
           (timer_elapse (timer_Stop (timer_elapse (timer_ bfr) lapse1)) lapse2)
           (Time_Sub (retryTime bfr) (timer_Now (timer_ bfr)))
    else if Time_IsZero (retryTime bfr) then timer_ bfr
    else timer_elapse (timer_ bfr) lapse1.
Proof.
  unfold doRetry, retryResets.
  destruct (Time_IsZero (retryTime bfr)); simpl; [done|].
  by destruct (Time_Sub (retryTime bfr) (timer_Now (timer_ bfr))
               <? timer_Remaining (timer_elapse (timer_ bfr) lapse1)).
Qed.

Lemma doRetry_clock (lapse1 lapse2 : Duration) (bfr : BoundedFrequencyRunner Fn) :
  0 ≤ lapse1 → 0 ≤ lapse2 →
  clock (timer_ bfr) ≤ clock (timer_ (doRetry lapse1 lapse2 bfr))
                     ≤ clock (timer_ bfr) + lapse1 + lapse2.
Proof.
  intros H1 H2. rewrite doRetry_timer.
  destruct (retryResets lapse1 bfr); [simpl; lia|].
  destruct (Time_IsZero (retryTime bfr)); simpl; lia.
Qed.

Lemma doRetry_reset_next (lapse1 lapse2 : Duration) (bfr : BoundedFrequencyRunner Fn) :
  retryResets lapse1 bfr = true →
  next (timer_ (doRetry lapse1 lapse2 bfr)) < next (timer_ bfr) + lapse2.
Proof.
  intros Hr. rewrite doRetry_timer, Hr.
  unfold retryResets in Hr. apply andb_true_iff in Hr as [_ Hlt].
  apply Z.ltb_lt in Hlt. simpl in *. unfold timer_Remaining, timer_Now in *.
  simpl in *. unfold Time_Add.
  pose proof (Time_Sub_bounds (retryTime bfr) (clock (timer_ bfr))) as [Hb _].
  pose proof (Time_Sub_lt_diff _ _ _ Hb Hlt). lia.
Qed.

Lemma doRetry_keep_next (lapse1 lapse2 : Duration) (bfr : BoundedFrequencyRunner Fn) :
  retryResets lapse1 bfr = false →
  next (timer_ (doRetry lapse1 lapse2 bfr)) = next (timer_ bfr)
  ∧ armed (timer_ (doRetry lapse1 lapse2 bfr)) = armed (timer_ bfr).
Proof.
  intros Hr. rewrite doRetry_timer, Hr.
  by destruct (Time_IsZero (retryTime bfr)).
Qed.

Lemma doRetry_next (lapse1 lapse2 : Duration) (bfr : BoundedFrequencyRunner Fn) :
  0 ≤ lapse2 →
  next (timer_ (doRetry lapse1 lapse2 bfr)) ≤ next (timer_ bfr) + lapse2.
Proof.
  intros H2. destruct (retryResets lapse1 bfr) eqn:Hr.
  - apply Z.lt_le_incl. by apply doRetry_reset_next.
  - destruct (doRetry_keep_next lapse1 lapse2 bfr Hr) as [-> _]. lia.
Qed.

End RunnerProperties.

(** C8: [construct] panics exactly when [maxInterval < minInterval] or the
    injected timer is nil; for every other configuration it returns a
    runner that holds the intervals and the timer it was given, with the
    null limiter exactly when [minInterval] is zero.  (The constructor of
    the token bucket, which is [flowcontrol]'s, is taken to return.) *)
Theorem construct_panics_iff :
  ∀ (Fn : Type) (name : string) (fn : Fn) (minInterval maxInterval : Duration)
    (burstRuns : Z) (timer : option timer),
    (panicked (construct name fn minInterval maxInterval burstRuns timer)
     ↔ maxInterval < minInterval ∨ timer = None)
    ∧ match construct name fn minInterval maxInterval burstRuns timer with
      | Panics p =>
          (maxInterval < minInterval ∧ p = PanicMaxLtMin name maxInterval minInterval)
          ∨ (minInterval ≤ maxInterval ∧ timer = None ∧ p = PanicNilTimer name)
      | Returns bfr =>
          minInterval ≤ maxInterval
          ∧ timer = Some (userspacelin.timer_ bfr)
          ∧ userspacelin.minInterval bfr = minInterval
          ∧ userspacelin.maxInterval bfr = maxInterval
          ∧ (limiter bfr = nullLimiter ↔ minInterval = 0)
      end.
Proof.
  intros Fn name fn minInterval maxInterval burstRuns timer. unfold construct.
  destruct (Z.ltb_spec maxInterval minInterval) as [Hlt|Hle].
  - split; [|by left]. simpl. split; [by left|done].
  - destruct timer as [t|]; simpl.
    + split.
      * split; [done|]. intros [?|?]; [lia|done].
      * split_and!; [done..|].
        destruct (Z.eqb_spec minInterval 0); split; done.
    + split; [|by right]. split; [by right|done].
Qed.

(** C9, as stated, fails: processing a retry can move the timer's deadline
    later.  At 101 s, the timer being due at 111 s, [RetryAfter] records a
    retry for one nanosecond before that; [doRetry] finds the retry
    interval shorter than the remaining time, and 5 ns pass before
    [Reset] reads the clock: the deadline moves from 111 s to 111 s + 4 ns. *)
Lemma doRetry_can_delay :
  retryTime retryingRunner = 111 * Second - 1
  ∧ next (timer_ retryingRunner) = 111 * Second
  ∧ next (timer_ (doRetry 0 5 retryingRunner)) = 111 * Second + 4
  ∧ ¬ next (timer_ (doRetry 0 5 retryingRunner)) ≤ next (timer_ retryingRunner).
Proof. vm_compute. split_and!; [done..|]. intros H. by apply H. Qed.

(** C9, amended: processing a retry moves the timer's deadline later by
    less than the time that passes within [doRetry] between the test of
    the remaining time and [Reset]'s reading of the clock, and not at all
    when the clock stands still between the two.  From every runner state
    and for every two lapses, [doRetry] resets the timer, to the retry
    interval, exactly when a retry time is recorded and that interval is
    strictly less than the timer's remaining time; the new deadline is then
    strictly sooner than the old one plus the second lapse.  Otherwise the
    deadline and the armed timer are left as they were.  The same holds
    when [RetryAfter] has just recorded the retry. *)
Theorem doRetry_delay_bounded :
  ∀ (Fn : Type) (lapse1 lapse2 : Duration) (bfr : BoundedFrequencyRunner Fn),
    (if retryResets lapse1 bfr
     then timer_ (doRetry lapse1 lapse2 bfr)
          = timer_Reset
              (timer_elapse (timer_Stop (timer_elapse (timer_ bfr) lapse1)) lapse2)
              (Time_Sub (retryTime bfr) (timer_Now (timer_ bfr)))
          ∧ Time_Sub (retryTime bfr) (timer_Now (timer_ bfr))
            < timer_Remaining (timer_elapse (timer_ bfr) lapse1)
          ∧ next (timer_ (doRetry lapse1 lapse2 bfr)) < next (timer_ bfr) + lapse2
     else next (timer_ (doRetry lapse1 lapse2 bfr)) = next (timer_ bfr)
          ∧ armed (timer_ (doRetry lapse1 lapse2 bfr)) = armed (timer_ bfr))
    ∧ next (timer_ (doRetry lapse1 0 bfr)) ≤ next (timer_ bfr)
    ∧ (∀ interval : Duration,
         next (timer_ (doRetry lapse1 0 (RetryAfter bfr interval)))
         ≤ next (timer_ bfr)
         ∧ next (timer_ (Loop_retry lapse1 0 (RetryAfter bfr interval)))
           ≤ next (timer_ bfr)).
Proof.
  intros Fn lapse1 lapse2 bfr.
  assert (Hstill : ∀ b : BoundedFrequencyRunner Fn,
             next (timer_ (doRetry lapse1 0 b)) ≤ next (timer_ b)).
  { intros b. pose proof (doRetry_next lapse1 0 b). lia. }
  split_and!.
  - destruct (retryResets lapse1 bfr) eqn:Hr.
    + split_and!.
      * by rewrite doRetry_timer, Hr.
      * unfold retryResets in Hr. apply andb_true_iff in Hr as [_ Hlt].
        by apply Z.ltb_lt in Hlt.
      * by apply doRetry_reset_next.
    + by apply doRetry_keep_next.
  - apply Hstill.
  - intros interval.
    assert (Ht : timer_ (RetryAfter bfr interval) = timer_ bfr).
    { unfold RetryAfter. by case_match. }
    split.
    + rewrite <- Ht. apply Hstill.
    + unfold Loop_retry. rewrite <- Ht.
      apply (Hstill (with_retry (RetryAfter bfr interval)
                       (retryTime (RetryAfter bfr interval)) false)).
Qed.

(** * Further properties of the tracker and the snapshot *)

(** X1: what a sync leaves under each key of the snapshot: the change that
    was pending for the key when there is one (no entry for the nil
    sentinel), and what the snapshot held before for a key with no pending
    change. *)
Theorem sync_snapshot_per_key :
  ∀ (E : Externals) (R : MapRange) (svcSnap : ServicesSnapshot)
    (changes : ServiceChangeTracker) (K : NamespacedName),
    (ServicesSnapshot_Update svcSnap changes).1.1 !! K
    = match items changes !! K with
      | Some (Some m) => Some m
      | Some None => None
      | None => svcSnap !! K
      end.
Proof.
  intros E R svcSnap changes K. rewrite Update_snapshot_lookup.
  by destruct (items changes !! K) as [[m|]|].
Qed.

(** X2: the stale set of a sync is exactly the set of printed cluster IPs
    of the ports that pass the UDP test among those the pre-sync snapshot
    stored under a key whose pending change is the nil sentinel.  So a sync
    with no sentinel pending, and the deletion of a key the snapshot does
    not hold, report nothing. *)
Theorem sync_stale_exact :
  ∀ (E : Externals) (R : MapRange) (svcSnap : ServicesSnapshot)
    (changes : ServiceChangeTracker),
    (∀ ip, ip ∈ UDPStaleClusterIP (ServicesSnapshot_Update svcSnap changes).2
           ↔ ∃ K m, items changes !! K = Some None ∧ svcSnap !! K = Some m
                    ∧ udpClusterIP m ip)
    ∧ (noSentinel changes →
       UDPStaleClusterIP (ServicesSnapshot_Update svcSnap changes).2 = ∅)
    ∧ ((∀ K, items changes !! K = Some None → svcSnap !! K = None) →
       UDPStaleClusterIP (ServicesSnapshot_Update svcSnap changes).2 = ∅).
Proof.
  intros E R svcSnap changes.
  assert (Hexact : ∀ ip,
            ip ∈ UDPStaleClusterIP (ServicesSnapshot_Update svcSnap changes).2
            ↔ ∃ K m, items changes !! K = Some None ∧ svcSnap !! K = Some m
                     ∧ udpClusterIP m ip).
  { intros ip. rewrite Update_stale_elem. split.
    - intros (K & HK & Hu). destruct (svcSnap !! K) as [m|] eqn:Hm.
      + by exists K, m.
      + destruct Hu as (pn & p & Hp & _). simpl in Hp. by rewrite lookup_empty in Hp.
    - intros (K & m & HK & Hm & Hu). exists K. by rewrite Hm. }
  split_and!; [done| |].
  - intros Hno. apply set_eq. intros ip. rewrite Hexact.
    split; [|by intros ?%not_elem_of_empty].
    intros (K & m & HK & _). by destruct (Hno K).
  - intros Habsent. apply set_eq. intros ip. rewrite Hexact.
    split; [|by intros ?%not_elem_of_empty].
    intros (K & m & HK & Hm & _). rewrite (Habsent K HK) in Hm. discriminate.
Qed.

(** The deletion of c/d, which the snapshot does not hold, reports
    nothing. *)
Lemma sync_stale_exact_witness :
  UDPStaleClusterIP
    (ServicesSnapshot_Update (E := IPv4Literals.externals) (R := trieOrder)
       {[ Scenario.key_ab := Scenario.twoProbes ]}
       (with_items Scenario.v4Tracker {[ ("c", "d") := None ]})).2 = ∅.
Proof.
  apply (proj2 (proj2 (sync_stale_exact IPv4Literals.externals trieOrder
           {[ Scenario.key_ab := Scenario.twoProbes ]}
           (with_items Scenario.v4Tracker {[ ("c", "d") := None ]})))).
  intros K HK. simpl in HK. apply lookup_singleton_Some in HK as [<- _].
  apply lookup_singleton_ne. discriminate.
Defined.

(** X3: the snapshot, the tracker and the stale set that a sync yields do
    not depend on the order in which the maps are ranged over. *)
Theorem sync_order_independent :
  ∀ (E : Externals) (R1 R2 : MapRange) (svcSnap : ServicesSnapshot)
    (changes : ServiceChangeTracker),
    (ServicesSnapshot_Update (R := R1) svcSnap changes).1
    = (ServicesSnapshot_Update (R := R2) svcSnap changes).1
    ∧ UDPStaleClusterIP (ServicesSnapshot_Update (R := R1) svcSnap changes).2
      = UDPStaleClusterIP (ServicesSnapshot_Update (R := R2) svcSnap changes).2.
Proof.
  intros E R1 R2 svcSnap changes. split.
  - apply injective_projections.
    + apply map_eq. intros K. by rewrite !Update_snapshot_lookup.
    + by rewrite !Update_tracker.
  - apply set_eq. intros ip. by rewrite !Update_stale_elem.
Qed.

(** X4: a second sync right after a sync changes nothing, whatever the
    orders in which the two syncs range over the maps: the snapshot is the
    same, no address is stale, the tracker is still empty and the
    health-check table has its entries under the same keys.  The table is
    the same when the stored health-check node ports are as the API gives
    them, one value per service. *)
Theorem sync_twice :
  ∀ (E : Externals) (R1 R2 : MapRange) (svcSnap : ServicesSnapshot)
    (changes : ServiceChangeTracker),
    let r1 := ServicesSnapshot_Update (R := R1) svcSnap changes in
    let r2 := ServicesSnapshot_Update (R := R2) r1.1.1 r1.1.2 in
    r2.1 = r1.1
    ∧ UDPStaleClusterIP r2.2 = ∅
    ∧ (∀ K, is_Some (HCServiceNodePorts r2.2 !! K)
            ↔ is_Some (HCServiceNodePorts r1.2 !! K))
    ∧ (probeConsistent r1.1.1 → HCServiceNodePorts r2.2 = HCServiceNodePorts r1.2).
Proof.
  intros E R1 R2 svcSnap changes r1 r2.
  assert (Hsnap : r2.1.1 = r1.1.1).
  { apply map_eq. intros K. unfold r2. rewrite Update_snapshot_lookup.
    unfold r1 at 1. by rewrite Update_tracker. }
  assert (Hkeys : ∀ (R : MapRange) (snap : ServicesSnapshot) K,
            is_Some (scanSnapshot (R := R) snap !! K)
            ↔ ∃ m v, snap !! K = Some m ∧ declaresHealthCheck m v).
  { intros R snap K. split.
    - intros [v Hv]. apply scanSnapshot_sound in Hv as (m & Hm & Hd). by exists m, v.
    - intros (m & v & Hm & pn & i & Hpn & Hnz & _). by eapply scanSnapshot_complete. }
  assert (H2 : HCServiceNodePorts r2.2 = scanSnapshot (R := R2) r1.1.1).
  { unfold r2. rewrite Update_healthcheck. fold r2. by rewrite Hsnap. }
  assert (H1 : HCServiceNodePorts r1.2 = scanSnapshot (R := R1) r1.1.1).
  { unfold r1. by rewrite Update_healthcheck. }
  split_and!.
  - apply injective_projections; [done|].
    unfold r2, r1. by rewrite !Update_tracker.
  - apply set_eq. intros ip. unfold r2. rewrite Update_stale_elem.
    split; [|by intros ?%not_elem_of_empty].
    intros (K & HK & _). unfold r1 in HK. by rewrite Update_tracker in HK.
  - intros K. by rewrite H2, H1, !Hkeys.
  - intros Hc. rewrite H2, H1.
    by eapply healthCheckTableExact_unique; apply scanSnapshot_exact.
Qed.

(** Two syncs, in opposite orders, of a snapshot in which a/b has a port
    with the health-check node port 8080. *)
Lemma sync_twice_witness :
  HCServiceNodePorts
    (ServicesSnapshot_Update (E := IPv4Literals.externals) (R := reverseTrieOrder)
       (ServicesSnapshot_Update (E := IPv4Literals.externals) (R := trieOrder)
          Scenario.probedSnapshot Scenario.v4Tracker).1.1
       (ServicesSnapshot_Update (E := IPv4Literals.externals) (R := trieOrder)
          Scenario.probedSnapshot Scenario.v4Tracker).1.2).2
  = HCServiceNodePorts
      (ServicesSnapshot_Update (E := IPv4Literals.externals) (R := trieOrder)
         Scenario.probedSnapshot Scenario.v4Tracker).2.
Proof.
  apply (sync_twice IPv4Literals.externals trieOrder reverseTrieOrder
           Scenario.probedSnapshot Scenario.v4Tracker).
  intros K m pn p Hm Hpn Hnz.
  assert (Hsnap : (ServicesSnapshot_Update (E := IPv4Literals.externals)
                     (R := trieOrder) Scenario.probedSnapshot Scenario.v4Tracker).1.1
                  = Scenario.probedSnapshot) by (by vm_compute).
  rewrite Hsnap in Hm. unfold Scenario.probedSnapshot in Hm.
  apply lookup_singleton_Some in Hm as [_ <-].
  apply lookup_singleton_Some in Hpn as [_ <-].
  split; [by eexists|]. split; [done|].
  intros pn' p' [_ <-]%lookup_singleton_Some _. reflexivity.
Defined.

Section TrackerCalls.
Context {E : Externals}.

Lemma Update_returns_inv sct S sct1 b :
  ServiceChangeTracker_Update sct (Some S) = Returns (sct1, b) →
  items sct !! ((Namespace S, Name S) : NamespacedName) ≠ Some None
  ∧ sct1 = with_items sct (<[((Namespace S, Name S) : NamespacedName) :=
                               Some (serviceToServiceMap sct (Some S))]> (items sct))
  ∧ b = true.
Proof.
  intros Hup.
  assert (Hk : items sct !! ((Namespace S, Name S) : NamespacedName) ≠ Some None).
  { intros Hk. unfold ServiceChangeTracker_Update in Hup. by rewrite Hk in Hup. }
  rewrite (Update_returns sct S Hk) in Hup. by injection Hup as <- <-.
Qed.

Lemma Update_keeps_noSentinel sct current sct1 b :
  noSentinel sct → ServiceChangeTracker_Update sct current = Returns (sct1, b) →
  noSentinel sct1.
Proof.
  intros Hno Hup. destruct current as [S|].
  - apply Update_returns_inv in Hup as (_ & -> & _). intros K. simpl.
    destruct (decide (K = (Namespace S, Name S))) as [->|Hne].
    + by rewrite lookup_insert_eq.
    + rewrite lookup_insert_ne by done. apply Hno.
  - by injection Hup as <- <-.
Qed.

End TrackerCalls.

(** X5: a [Delete] after an [Update] of the same service leaves the tracker
    that the [Delete] alone leaves: the pending port set is replaced by the
    nil sentinel. *)
Theorem delete_overrides_update :
  ∀ (E : Externals) (sct sct1 : ServiceChangeTracker) (S : Service) (b : bool),
    ServiceChangeTracker_Update sct (Some S) = Returns (sct1, b) →
    ServiceChangeTracker_Delete sct1 (Namespace S) (Name S)
    = ServiceChangeTracker_Delete sct (Namespace S) (Name S).
Proof.
  intros E sct sct1 S b (_ & -> & _)%Update_returns_inv.
  unfold ServiceChangeTracker_Delete. simpl. by rewrite insert_insert_eq.
Qed.

Lemma delete_overrides_update_witness :
  ServiceChangeTracker_Delete
    (with_items Scenario.v4Tracker
       {[ Scenario.key_ab :=
            Some (serviceToServiceMap (E := IPv4Literals.externals)
                    Scenario.v4Tracker (Some Scenario.dnsService)) ]}) "a" "b"
  = ServiceChangeTracker_Delete Scenario.v4Tracker "a" "b".
Proof.
  apply (delete_overrides_update IPv4Literals.externals Scenario.v4Tracker _
           Scenario.dnsService true).
  reflexivity.
Defined.

(** X6: of two [Update]s for the same (namespace, name) between two syncs,
    the last one wins: after the first returned, the second leaves what it
    would have left alone. *)
Theorem last_update_wins :
  ∀ (E : Externals) (sct sct1 : ServiceChangeTracker) (S1 S2 : Service) (b : bool),
    ServiceChangeTracker_Update sct (Some S1) = Returns (sct1, b) →
    Namespace S2 = Namespace S1 → Name S2 = Name S1 →
    ServiceChangeTracker_Update sct1 (Some S2)
    = ServiceChangeTracker_Update sct (Some S2).
Proof.
  intros E sct sct1 S1 S2 b (Hk & -> & _)%Update_returns_inv Hns Hname.
  rewrite <- Hns, <- Hname in Hk.
  rewrite (Update_returns sct S2 Hk), Update_returns.
  - simpl. rewrite Hns, Hname. by rewrite insert_insert_eq.
  - simpl. rewrite Hns, Hname. by rewrite lookup_insert_eq.
Qed.

Lemma last_update_wins_witness :
  ServiceChangeTracker_Update (E := IPv4Literals.externals)
    (with_items Scenario.v4Tracker
       {[ Scenario.key_ab :=
            Some (serviceToServiceMap (E := IPv4Literals.externals)
                    Scenario.v4Tracker (Some Scenario.dnsService)) ]})
    (Some Scenario.dnsServiceMoved)
  = ServiceChangeTracker_Update (E := IPv4Literals.externals)
      Scenario.v4Tracker (Some Scenario.dnsServiceMoved).
Proof.
  apply (last_update_wins IPv4Literals.externals Scenario.v4Tracker _
           Scenario.dnsService Scenario.dnsServiceMoved true);
    reflexivity.
Defined.

(** X7: [Update] with a service and [Delete] touch the pending entry of
    their key only, keep the family and the adapter, and always answer
    true: the pending map holds at least the entry they wrote.  [Delete]
    stores the nil sentinel whether or not the key was known. *)
Theorem update_delete_frame :
  ∀ (E : Externals) (sct : ServiceChangeTracker) (S : Service) (namespace name : string),
    match ServiceChangeTracker_Update sct (Some S) with
    | Returns (sct1, b) =>
        b = true
        ∧ ipFamily sct1 = ipFamily sct ∧ makeServiceInfo sct1 = makeServiceInfo sct
        ∧ ∀ K, K ≠ (Namespace S, Name S) → items sct1 !! K = items sct !! K
    | Panics _ => True
    end
    ∧ (ServiceChangeTracker_Delete sct namespace name).2 = true
    ∧ items (ServiceChangeTracker_Delete sct namespace name).1 !! (namespace, name)
      = Some None
    ∧ ipFamily (ServiceChangeTracker_Delete sct namespace name).1 = ipFamily sct
    ∧ makeServiceInfo (ServiceChangeTracker_Delete sct namespace name).1
      = makeServiceInfo sct
    ∧ ∀ K, K ≠ (namespace, name) →
           items (ServiceChangeTracker_Delete sct namespace name).1 !! K = items sct !! K.
Proof.
  intros E sct S namespace name. split_and!.
  - destruct (ServiceChangeTracker_Update sct (Some S)) as [[sct1 b]|p] eqn:Hup; [|done].
    apply Update_returns_inv in Hup as (_ & -> & ->). split_and!; [done..|].
    intros K HK. simpl. by rewrite lookup_insert_ne.
  - unfold ServiceChangeTracker_Delete. simpl. apply bool_decide_eq_true_2.
    destruct (size (<[((namespace, name) : NamespacedName) := None]> (items sct))) eqn:Hs;
      [|lia].
    apply map_size_empty_inv in Hs. by apply insert_non_empty in Hs.
  - simpl. apply lookup_insert_eq.
  - reflexivity.
  - reflexivity.
  - intros K HK. simpl. by rewrite lookup_insert_ne.
Qed.

(** X8: a sequence of [Update] calls, with no [Delete] among them, on a
    tracker that has no nil sentinel pending runs to its end, and no nil
    sentinel is pending after it; such is every tracker right after a
    sync. *)
Theorem updates_never_panic :
  ∀ (E : Externals) (R : MapRange) (cs : list trackerCall) (sct : ServiceChangeTracker),
    Forall isUpdate cs →
    (noSentinel sct → ∃ sct', calls cs sct = Returns sct' ∧ noSentinel sct')
    ∧ (∀ svcSnap, ∃ sct', calls cs (ServicesSnapshot_Update svcSnap sct).1.2
                          = Returns sct' ∧ noSentinel sct').
Proof.
  intros E R cs sct Hcs.
  assert (Hrun : ∀ sct, noSentinel sct →
            ∃ sct', calls cs sct = Returns sct' ∧ noSentinel sct').
  { clear sct. induction Hcs as [|c cs Hc Hcs IH]; intros sct Hno; [by exists sct|].
    destruct c as [current|]; [|done]. simpl.
    destruct (ServiceChangeTracker_Update sct current) as [[sct1 b]|p] eqn:Hup.
    - apply IH. by eapply Update_keeps_noSentinel.
    - destruct current as [S|]; [|done].
      unfold ServiceChangeTracker_Update in Hup.
      destruct (items sct !! ((Namespace S, Name S) : NamespacedName)) as [[c|]|] eqn:HK;
        [done| |done].
      by destruct (Hno (Namespace S, Name S)). }
  split; [apply Hrun|]. intros svcSnap. apply Hrun.
  intros K. rewrite Update_tracker. simpl. by rewrite lookup_empty.
Qed.

Lemma updates_never_panic_witness :
  ∃ sct', calls (E := IPv4Literals.externals)
            [CallUpdate (Some Scenario.dnsService); CallUpdate None;
             CallUpdate (Some Scenario.dnsServiceMoved)] Scenario.v4Tracker
          = Returns sct' ∧ noSentinel sct'.
Proof.
  apply (updates_never_panic IPv4Literals.externals trieOrder).
  - repeat constructor.
  - intros K. unfold Scenario.v4Tracker. simpl. by rewrite lookup_empty.
Defined.

Lemma size_list_to_set_le `{Countable A} (l : list A) :
  (size (list_to_set l : gset A) ≤ length l)%nat.
Proof.
  induction l as [|x l IH]; [by rewrite list_to_set_nil, size_empty|].
  rewrite list_to_set_cons, size_union_alt, size_singleton.
  assert (size (list_to_set l ∖ {[x]} : gset A) ≤ size (list_to_set l : gset A))%nat
    by (by apply subseteq_size, subseteq_difference_l).
  simpl. lia.
Qed.

Section Materialize.
Context {E : Externals}.

Lemma serviceToServiceMap_step_insert sct S m pm :
  serviceToServiceMap_step sct S m pm
  = <[servicePortNameOf S pm := servicePortOf sct S pm]> m.
Proof.
  unfold serviceToServiceMap_step, servicePortOf, servicePortNameOf.
  by destruct (makeServiceInfo sct).
Qed.

(** The loop over the ports: the last port mapping of a key decides. *)
Lemma serviceToServiceMap_loop_lookup sct S l (m : serviceChange) key :
  foldl (serviceToServiceMap_step sct S) m l !! key
  = match list_find (λ pm, servicePortNameOf S pm = key) (reverse l) with
    | Some (_, pm) => Some (servicePortOf sct S pm)
    | None => m !! key
    end.
Proof.
  revert m. induction l as [|pm l IH] using rev_ind; intros m; [done|].
  rewrite foldl_app, reverse_app. simpl. rewrite serviceToServiceMap_step_insert.
  case_decide as Hkey; simpl.
  - by rewrite <- Hkey, lookup_insert_eq.
  - rewrite lookup_insert_ne by done. rewrite IH.
    by destruct (list_find _ (reverse l)) as [[i pm']|].
Qed.

Lemma serviceToServiceMap_lookup sct S key :
  GetClusterIPByFamily (ipFamily sct) S ≠ "" →
  serviceToServiceMap sct (Some S) !! key
  = match list_find (λ pm, servicePortNameOf S pm = key) (reverse (Ports S)) with
    | Some (_, pm) => Some (servicePortOf sct S pm)
    | None => None
    end.
Proof.
  intros Hne. unfold serviceToServiceMap.
  destruct (String.eqb (GetClusterIPByFamily (ipFamily sct) S) "") eqn:Heq;
    [by apply eqb_empty_string in Heq|].
  by rewrite serviceToServiceMap_loop_lookup, lookup_empty.
Qed.

End Materialize.

(** X9: the keys of the port set materialized for a service are exactly
    the (namespace, name, port name, protocol) of its port mappings, when
    the service has a cluster IP of the tracker's family (there is no key
    otherwise); so there are at most as many entries as port mappings. *)
Theorem materialized_keys :
  ∀ (E : Externals) (sct : ServiceChangeTracker) (S : Service) (key : ServicePortName),
    (is_Some (serviceToServiceMap sct (Some S) !! key)
     ↔ GetClusterIPByFamily (ipFamily sct) S ≠ ""
       ∧ ∃ pm, pm ∈ Ports S ∧ key = servicePortNameOf S pm)
    ∧ (size (serviceToServiceMap sct (Some S)) ≤ length (Ports S))%nat.
Proof.
  intros E sct S key.
  assert (Hkeys : ∀ key, is_Some (serviceToServiceMap sct (Some S) !! key)
            ↔ GetClusterIPByFamily (ipFamily sct) S ≠ ""
              ∧ ∃ pm, pm ∈ Ports S ∧ key = servicePortNameOf S pm).
  { clear key. intros key.
    destruct (decide (GetClusterIPByFamily (ipFamily sct) S = "")) as [Hip|Hip].
    - assert (serviceToServiceMap sct (Some S) = ∅) as ->
        by (apply serviceToServiceMap_empty_iff; by left).
      rewrite lookup_empty. split; [by intros [? ?]|by intros [? _]].
    - rewrite serviceToServiceMap_lookup by done.
      destruct (list_find _ (reverse (Ports S))) as [[i pm]|] eqn:Hfind.
      + apply list_find_Some in Hfind as (Hi & Hkey & _).
        split; [|by eexists]. intros _. split; [done|]. exists pm. split; [|done].
        apply elem_of_reverse. by eapply list_elem_of_lookup_2.
      + split; [by intros [? ?]|]. intros (_ & pm & Hin & Hkey). exfalso.
        eapply list_find_None in Hfind. rewrite Forall_forall in Hfind.
        by apply (Hfind pm); [apply elem_of_reverse|]. }
  split; [apply Hkeys|].
  rewrite <- size_dom.
  transitivity (size (list_to_set (servicePortNameOf S <$> Ports S) : gset ServicePortName)).
  - apply subseteq_size. intros k Hk. apply elem_of_dom in Hk.
    apply Hkeys in Hk as (_ & pm & Hin & ->).
    apply elem_of_list_to_set. by apply list_elem_of_fmap_2.
  - rewrite <- (length_fmap (servicePortNameOf S)). apply size_list_to_set_le.
Qed.

(** X10: when several port mappings of a service have the same name and
    protocol, the last one in the list is the one materialized. *)
Theorem last_port_mapping_wins :
  ∀ (E : Externals) (sct : ServiceChangeTracker) (S : Service)
    (before after : list PortMapping) (pm : PortMapping),
    GetClusterIPByFamily (ipFamily sct) S ≠ "" →
    Ports S = (before ++ pm :: after)%list →
    (∀ pm', pm' ∈ after → servicePortNameOf S pm' ≠ servicePortNameOf S pm) →
    serviceToServiceMap sct (Some S) !! servicePortNameOf S pm
    = Some (servicePortOf sct S pm).
Proof.
  intros E sct S before after pm Hip HP Hafter.
  unfold serviceToServiceMap.
  destruct (String.eqb (GetClusterIPByFamily (ipFamily sct) S) "") eqn:Heq;
    [by apply eqb_empty_string in Heq|].
  rewrite HP, foldl_app. simpl. rewrite serviceToServiceMap_step_insert.
  rewrite serviceToServiceMap_loop_lookup.
  destruct (list_find _ (reverse after)) as [[i pm']|] eqn:Hfind.
  - apply list_find_Some in Hfind as (Hi & Hkey & _).
    destruct (Hafter pm'); [|done].
    apply elem_of_reverse. by eapply list_elem_of_lookup_2.
  - apply lookup_insert_eq.
Qed.

(** Port p/TCP is listed twice: the second mapping, port 8080, is the one
    stored. *)
Lemma last_port_mapping_wins_witness :
  let S := Scenario.service_ab "" ["10.0.0.1"]
             [Scenario.portMapping "p" TCP 80; Scenario.portMapping "p" TCP 8080] in
  port (baseOf (default (Scenario.probedPort "" 0)
                  (serviceToServiceMap (E := IPv4Literals.externals)
                     Scenario.v4Tracker (Some S)
                   !! servicePortNameOf S (Scenario.portMapping "p" TCP 8080)))) = 8080.
Proof.
  intros S.
  rewrite (last_port_mapping_wins IPv4Literals.externals Scenario.v4Tracker S
             [Scenario.portMapping "p" TCP 80] [] (Scenario.portMapping "p" TCP 8080)).
  - reflexivity.
  - discriminate.
  - reflexivity.
  - intros pm' Hin. by apply elem_of_nil in Hin.
Defined.

(** X11: every port the tracker materializes by itself (no adapter, or the
    [newServiceInfo] adapter) agrees with its key and with the service: its
    port name and protocol are those of the key, the key carries the
    service's namespace and name, its cluster IP is the parsed cluster IP
    of the tracker's family, and it has no health-check node port. *)
Theorem materialized_port_attributes :
  ∀ (E : Externals) (sct : ServiceChangeTracker) (S : Service)
    (key : ServicePortName) (p : ServicePort),
    makeServiceInfo sct = None ∨ makeServiceInfo sct = Some newServiceInfo →
    serviceToServiceMap sct (Some S) !! key = Some p →
    spn_NamespacedName key = (Namespace S, Name S)
    ∧ portName (baseOf p) = spn_Port key
    ∧ Protocol_ p = spn_Protocol key
    ∧ ClusterIP p = ParseIP (GetClusterIPByFamily (ipFamily sct) S)
    ∧ HealthCheckNodePort p = 0.
Proof.
  intros E sct S key p Hmk Hp.
  destruct (decide (GetClusterIPByFamily (ipFamily sct) S = "")) as [Hip|Hip].
  { assert (serviceToServiceMap sct (Some S) = ∅) as Hempty
      by (apply serviceToServiceMap_empty_iff; by left).
    by rewrite Hempty, lookup_empty in Hp. }
  rewrite serviceToServiceMap_lookup in Hp by done.
  destruct (list_find _ (reverse (Ports S))) as [[i pm]|] eqn:Hfind; [|done].
  apply list_find_Some in Hfind as (_ & <- & _). injection Hp as <-.
  unfold servicePortOf. destruct Hmk as [-> | ->]; by split_and!.
Qed.

Lemma materialized_port_attributes_witness :
  ClusterIP (BasePort (newBaseServiceInfo (E := IPv4Literals.externals)
               Scenario.v4Tracker (Scenario.portMapping "p" UDP 53) Scenario.dnsService))
  = [0; 0; 0; 0; 0; 0; 0; 0; 0; 0; 255; 255; 10; 0; 0; 1].
Proof.
  apply (materialized_port_attributes IPv4Literals.externals Scenario.v4Tracker
           Scenario.dnsService (Scenario.name_p UDP)).
  - by left.
  - apply lookup_insert_eq.
Defined.

(** X12: [getLoadbalancerSourceRanges] is the concatenation, in order, of
    the source ranges of all the filters. *)
Theorem source_ranges_concat :
  ∀ filters : list IPFilter,
    getLoadbalancerSourceRanges filters = mjoin (SourceRanges <$> filters).
Proof.
  intros filters. unfold getLoadbalancerSourceRanges.
  enough (Hgen : ∀ acc : list string,
            foldl (λ (sourceRanges : list string) filter,
                     if bool_decide (length (SourceRanges filter) ≤ 0)%nat
                     then sourceRanges
                     else (sourceRanges ++ SourceRanges filter)%list) acc filters
            = (acc ++ mjoin (SourceRanges <$> filters))%list) by apply Hgen.
  induction filters as [|f filters IH]; intros acc; simpl.
  - by rewrite app_nil_r.
  - rewrite IH. case_bool_decide as Hlen.
    + destruct (SourceRanges f); [done|simpl in Hlen; lia].
    + by rewrite <- app_assoc.
Qed.

Section ProbeFree.
Context {E : Externals} {R : MapRange}.

Lemma scanSnapshot_unprobed (svcSnap : ServicesSnapshot) :
  (∀ K m, svcSnap !! K = Some m → unprobed m) → scanSnapshot svcSnap = ∅.
Proof.
  intros Hsnap. apply map_empty. intros K.
  destruct (scanSnapshot svcSnap !! K) as [v|] eqn:Hv; [|done].
  apply scanSnapshot_sound in Hv as (m & Hm & pn & i & Hpn & Hnz & _).
  destruct Hnz. apply (Hsnap K m Hm pn (InfoPort i) Hpn).
Qed.

Lemma probeFree_call c svcSnap sct sct' last :
  probeFree svcSnap sct last → calls [c] sct = Returns sct' →
  probeFree svcSnap sct' last.
Proof.
  intros (Hsnap & Hpending & Hmk & Hlast) Hcall. destruct c as [current|namespace name].
  - simpl in Hcall.
    destruct (ServiceChangeTracker_Update sct current) as [[sct1 b]|p] eqn:Hup; [|done].
    injection Hcall as ->. destruct current as [S|].
    + apply Update_returns_inv in Hup as (_ & -> & _). split_and!; [done| |done..].
      intros K m. simpl.
      destruct (decide (K = (Namespace S, Name S))) as [->|Hne].
      * rewrite lookup_insert_eq. intros [= <-] pn p.
        by apply serviceToServiceMap_healthcheck_zero.
      * rewrite lookup_insert_ne by done. apply Hpending.
    + by injection Hup as <- _.
  - simpl in Hcall. injection Hcall as <-. split_and!; [done| |done..].
    intros K m. simpl.
    destruct (decide (K = (namespace, name))) as [->|Hne].
    + by rewrite lookup_insert_eq.
    + rewrite lookup_insert_ne by done. apply Hpending.
Qed.

Lemma probeFree_sync svcSnap sct last :
  probeFree svcSnap sct last →
  probeFree (ServicesSnapshot_Update svcSnap sct).1.1
    (ServicesSnapshot_Update svcSnap sct).1.2
    (Some (ServicesSnapshot_Update svcSnap sct).2).
Proof.
  intros (Hsnap & Hpending & Hmk & _).
  assert (Hsnap' : ∀ K m, (ServicesSnapshot_Update svcSnap sct).1.1 !! K = Some m →
            unprobed m).
  { intros K m. rewrite Update_snapshot_lookup.
    destruct (items sct !! K) as [[m'|]|] eqn:HK; [|done|apply Hsnap].
    intros [= <-]. by eapply Hpending. }
  split_and!; [done| | |].
  - intros K m. rewrite Update_tracker. simpl. by rewrite lookup_empty.
  - by rewrite Update_tracker.
  - intros res Hres.
    assert (res = (ServicesSnapshot_Update svcSnap sct).2) as -> by congruence.
    rewrite Update_healthcheck. by apply scanSnapshot_unprobed.
Qed.

Lemma probeFree_session cs svcSnap sct last svcSnap' sct' last' :
  probeFree svcSnap sct last →
  session cs svcSnap sct last = Returns (svcSnap', sct', last') →
  probeFree svcSnap' sct' last'.
Proof.
  revert svcSnap sct last. induction cs as [|[c|] cs IH]; intros svcSnap sct last Hinv Hrun.
  - by injection Hrun as <- <- <-.
  - cbn [session] in Hrun.
    destruct (calls [c] sct) as [sct1|p] eqn:Hcall; [|done].
    eapply IH; [|done]. by eapply probeFree_call.
  - cbn [session] in Hrun. eapply IH; [|done]. by eapply probeFree_sync.
Qed.


End ProbeFree.



(** X14: the health-check table of a proxy whose tracker has no adapter, or
    the [newServiceInfo] adapter, is always empty: from the empty snapshot
    and a fresh tracker, after any run of [Update], [Delete] and sync
    calls, the table that the last sync returned has no entry. *)
Theorem healthcheck_table_always_empty :
  ∀ (E : Externals) (R : MapRange) (mk : option makeServicePortFunc) (fam : IPFamily)
    (cs : list proxyCall) (svcSnap : ServicesSnapshot) (sct : ServiceChangeTracker)
    (res : UpdateServiceMapResult),
    mk = None ∨ mk = Some newServiceInfo →
    session cs ∅ (NewServiceChangeTracker mk fam) None = Returns (svcSnap, sct, Some res) →
    HCServiceNodePorts res = ∅.
Proof.
  intros E R mk fam cs svcSnap sct res Hmk Hrun.
  apply (probeFree_session cs ∅ (NewServiceChangeTracker mk fam) None) in Hrun
    as (_ & _ & _ & Hlast); [by apply Hlast|].
  split_and!; [| |done|done].
  - intros K m. by rewrite lookup_empty.
  - intros K m. simpl. by rewrite lookup_empty.
Qed.

(** Update a/b, sync, delete a/b, sync. *)
Lemma healthcheck_table_always_empty_witness :
  ∃ svcSnap sct res,
    session (E := IPv4Literals.externals) (R := trieOrder)
      [Track (CallUpdate (Some Scenario.dnsService)); Sync;
       Track (CallDelete "a" "b"); Sync]
      ∅ (NewServiceChangeTracker (Some (newServiceInfo (E := IPv4Literals.externals)))
           IPv4Protocol) None
    = Returns (svcSnap, sct, Some res)
    ∧ HCServiceNodePorts res = ∅.
Proof.
  eexists _, _, _. split; [reflexivity|].
  eapply (healthcheck_table_always_empty IPv4Literals.externals trieOrder
            (Some (newServiceInfo (E := IPv4Literals.externals))) IPv4Protocol
            [Track (CallUpdate (Some Scenario.dnsService)); Sync;
             Track (CallDelete "a" "b"); Sync]).
  - by right.
  - reflexivity.
Defined.

(** * Further properties of the userspace utilities *)

Section EndpointsMap.
Variable JoinHostPort : string → string → string.
Variable Itoa : Z → string.

Lemma portsToEndpoints_step_entries ip m port n :
  entriesAt (portsToEndpoints_step JoinHostPort Itoa ip m port) n
  = (entriesAt m n ++ contribution JoinHostPort Itoa ip n port)%list.
Proof.
  unfold portsToEndpoints_step, contribution, entriesAt.
  destruct (isValidEndpoint ip (pm_Port port)); simpl; [|by rewrite app_nil_r].
  destruct (String.eqb_spec (pm_Name port) n) as [->|Hne].
  - by rewrite lookup_insert_eq.
  - rewrite lookup_insert_ne by done. by rewrite app_nil_r.
Qed.

Lemma portsToEndpoints_step_noEmpty ip m port :
  noEmptyEntry m → noEmptyEntry (portsToEndpoints_step JoinHostPort Itoa ip m port).
Proof.
  intros Hm n l. unfold portsToEndpoints_step.
  destruct (isValidEndpoint ip (pm_Port port)); [|apply Hm].
  intros [[_ <-]|[_ ?]]%lookup_insert_Some; [|by eapply Hm].
  by destruct (default [] (m !! pm_Name port)).
Qed.

Lemma portsToEndpoints_ports ip ports m n :
  entriesAt (foldl (portsToEndpoints_step JoinHostPort Itoa ip) m ports) n
  = (entriesAt m n ++ (ports ≫= contribution JoinHostPort Itoa ip n))%list
  ∧ (noEmptyEntry m →
     noEmptyEntry (foldl (portsToEndpoints_step JoinHostPort Itoa ip) m ports)).
Proof.
  revert m. induction ports as [|port ports IH]; intros m; simpl.
  - by rewrite app_nil_r.
  - destruct (IH (portsToEndpoints_step JoinHostPort Itoa ip m port)) as [-> Hne].
    split.
    + by rewrite portsToEndpoints_step_entries, <- app_assoc.
    + intros Hm. by apply Hne, portsToEndpoints_step_noEmpty.
Qed.

Lemma portsToEndpoints_ips ips ports m n :
  entriesAt (foldl (λ (acc : gmap string (list string)) (ip : string),
                      foldl (portsToEndpoints_step JoinHostPort Itoa ip) acc ports)
                   m ips) n
  = (entriesAt m n ++ (ips ≫= λ ip, ports ≫= contribution JoinHostPort Itoa ip n))%list
  ∧ (noEmptyEntry m →
     noEmptyEntry (foldl (λ (acc : gmap string (list string)) (ip : string),
                            foldl (portsToEndpoints_step JoinHostPort Itoa ip) acc ports)
                         m ips)).
Proof.
  revert m. induction ips as [|ip ips IH]; intros m; simpl.
  - by rewrite app_nil_r.
  - destruct (IH (foldl (portsToEndpoints_step JoinHostPort Itoa ip) m ports))
      as [-> Hne].
    destruct (portsToEndpoints_ports ip ports m n) as [-> Hne'].
    split; [by rewrite <- app_assoc|]. intros Hm. by apply Hne, Hne'.
Qed.

End EndpointsMap.

(** X15: [buildPortsToEndpointsMap] maps a port name to its endpoints: for
    each IPv4 address of the endpoint in turn and each port of the service
    with that name in turn, the address joined with the target port,
    leaving out empty addresses and ports that are not positive.  A name
    with no such endpoint has no entry: no entry is an empty list, and an
    endpoint with no IPv4 address gives the empty map. *)
Theorem ports_to_endpoints_lookup :
  ∀ (JoinHostPort : string → string → string) (Itoa : Z → string)
    (ep : Endpoint) (svc : Service) (n : string),
    buildPortsToEndpointsMap JoinHostPort Itoa ep svc !! n
    = match endpointsOf JoinHostPort Itoa ep svc n with
      | [] => None
      | l => Some l
      end.
Proof.
  intros JoinHostPort Itoa ep svc n. unfold buildPortsToEndpointsMap.
  destruct (portsToEndpoints_ips JoinHostPort Itoa (GetV4 (ep_IPs ep)) (Ports svc) ∅ n)
    as [Hentries Hne].
  assert (Hspec : (GetV4 (ep_IPs ep) ≫= λ ip, Ports svc ≫= contribution JoinHostPort Itoa ip n)
                  = endpointsOf JoinHostPort Itoa ep svc n) by reflexivity.
  rewrite Hspec in Hentries. unfold entriesAt in Hentries.
  rewrite lookup_empty in Hentries. simpl in Hentries.
  destruct (foldl _ ∅ (GetV4 (ep_IPs ep)) !! n) as [l|] eqn:Hl; simpl in Hentries.
  - rewrite <- Hentries. destruct l; [|done].
    exfalso. eapply Hne; [|exact Hl|done]. intros n' l'. by rewrite lookup_empty.
  - by rewrite <- Hentries.
Qed.

Section Shuffle.

Lemma shuffle_loop (s : list string) (pairs : list (nat * nat)) (acc : list string) :
  (∀ i j, (i, j) ∈ pairs → (i < length s)%nat ∧ (j < length acc)%nat) →
  NoDup pairs.*2 →
  ∃ l, foldl (shuffleStep s) (Some acc) pairs = Some l
       ∧ length l = length acc
       ∧ (∀ i j, (i, j) ∈ pairs → l !! j = s !! i)
       ∧ (∀ j, j ∉ pairs.*2 → l !! j = acc !! j).
Proof.
  revert acc. induction pairs as [|[i j] pairs IH]; intros acc Hrange Hnd.
  - exists acc. split_and!; [done..| |done]. intros i j Hin. by apply elem_of_nil in Hin.
  - simpl in Hnd. apply NoDup_cons in Hnd as [Hj Hnd]. cbn [foldl].
    destruct (Hrange i j) as [Hi Hjlen]; [left|].
    destruct (lookup_lt_is_Some_2 s i Hi) as [x Hx].
    assert (Hstep : shuffleStep s (Some acc) (i, j) = Some (<[j := x]> acc)).
    { unfold shuffleStep. simpl. by rewrite Hx, bool_decide_eq_true_2. }
    rewrite Hstep.
    destruct (IH (<[j := x]> acc)) as (l & Hl & Hlen & Hset & Hkeep); [|done|].
    { intros i' j' Hin. rewrite length_insert. apply Hrange. by right. }
    exists l. rewrite length_insert in Hlen. split_and!; [done..| |].
    + intros i' j' [[= -> ->]|Hin]%elem_of_cons; [|by apply Hset].
      by rewrite Hkeep, list_lookup_insert_eq, Hx.
    + intros j' [Hne Hj']%not_elem_of_cons.
      by rewrite Hkeep, list_lookup_insert_ne.
Qed.

End Shuffle.

(** X16: given a permutation of the indices of [s], as [utilrand.Perm]
    answers, [ShuffleStrings] returns: it yields a permutation of [s], of the
    same length, in which the string at index i of [s] is at index
    perm[i]. *)
Theorem shuffle_is_permutation :
  ∀ (perm : list nat) (s : list string),
    perm ≡ₚ seq 0 (length s) →
    ∃ l, ShuffleStrings perm s = Some l
         ∧ l ≡ₚ s
         ∧ length l = length s
         ∧ ∀ i j, perm !! i = Some j → l !! j = s !! i.
Proof.
  intros perm s Hperm.
  assert (Hlen : length perm = length s) by (by rewrite Hperm, length_seq).
  assert (Hnd : NoDup perm) by (rewrite Hperm; apply NoDup_seq).
  assert (Hlt : ∀ j, j ∈ perm → (j < length s)%nat).
  { intros j. rewrite Hperm, elem_of_seq. lia. }
  assert (Hpairs : ∀ i j, (i, j) ∈ imap pair perm ↔ perm !! i = Some j).
  { intros i j. rewrite list_elem_of_lookup. split.
    - intros (k & Hk). rewrite list_lookup_imap in Hk.
      destruct (perm !! k) eqn:Hpk; simpl in Hk; [|done]. by injection Hk as -> ->.
    - intros Hij. exists i. by rewrite list_lookup_imap, Hij. }
  assert (Hsnd : (imap pair perm).*2 = perm).
  { apply list_eq. intros k. rewrite list_lookup_fmap, list_lookup_imap.
    by destruct (perm !! k). }
  destruct (shuffle_loop s (imap pair perm) (replicate (length s) ""))
    as (l & Hl & Hll & Hset & _).
  { intros i j Hij%Hpairs. rewrite length_replicate. split.
    - rewrite <- Hlen. by eapply lookup_lt_Some.
    - eapply Hlt, list_elem_of_lookup_2, Hij. }
  { by rewrite Hsnd. }
  rewrite length_replicate in Hll.
  assert (Hmove : ∀ i j, perm !! i = Some j → l !! j = s !! i).
  { intros i j Hij. by apply Hset, Hpairs. }
  exists l. split_and!; [exact Hl| |done..].
  symmetry. apply Permutation_inj. split; [done|].
  exists (λ i, default i (perm !! i)). split.
  - intros i1 i2 Heq.
    destruct (perm !! i1) as [j1|] eqn:H1, (perm !! i2) as [j2|] eqn:H2; simpl in Heq.
    + rewrite <- Heq in H2. by eapply NoDup_lookup.
    + apply lookup_ge_None in H2.
      assert (j1 < length s)%nat by (eapply Hlt, list_elem_of_lookup_2, H1). lia.
    + apply lookup_ge_None in H1.
      assert (j2 < length s)%nat by (eapply Hlt, list_elem_of_lookup_2, H2). lia.
    + done.
  - intros i. destruct (perm !! i) as [j|] eqn:Hi; simpl.
    + symmetry. by apply Hmove.
    + apply lookup_ge_None in Hi.
      rewrite (lookup_ge_None_2 s), (lookup_ge_None_2 l); [done|lia..].
Qed.

Lemma shuffle_is_permutation_witness :
  ∃ l, ShuffleStrings [2; 0; 1]%nat ["a"; "b"; "c"] = Some l
       ∧ l ≡ₚ ["a"; "b"; "c"].
Proof.
  destruct (shuffle_is_permutation [2; 0; 1]%nat ["a"; "b"; "c"])
    as (l & Hl & Hperm & _).
  - apply (Permutation_app_comm [2]%nat [0; 1]%nat).
  - by exists l.
Defined.

Example shuffle_moves_by_index :
  ShuffleStrings [2; 0; 1]%nat ["a"; "b"; "c"] = Some ["b"; "c"; "a"].
Proof. reflexivity. Qed.

(** * Further properties of the bounded-frequency runner *)

Lemma Time_Sub_Add_in_range (t : Time) (d : Duration) :
  minDuration ≤ d ≤ maxDuration → Time_Sub (Time_Add t d) t = d.
Proof.
  unfold Time_Sub, Time_Add, minDuration, maxDuration. intros Hd.
  replace (t + d - t) with d by lia. repeat case_match; lia.
Qed.

Lemma wrap64_bounds (z : Z) : minDuration ≤ wrap64 z ≤ maxDuration.
Proof.
  unfold wrap64, minDuration, maxDuration.
  pose proof (Z.mod_pos_bound (z + 2 ^ 63) (2 ^ 64)). lia.
Qed.

Lemma wrap64_in_range (z : Z) : minDuration ≤ z ≤ maxDuration → wrap64 z = z.
Proof.
  unfold wrap64, minDuration, maxDuration. intros Hz.
  rewrite Z.mod_small; lia.
Qed.

(** X17: a timer that was reset to a duration has that duration remaining
    (the clock standing still); stopping a timer does not change what
    remains, and a reset after a stop is the reset alone.  [Loop] starts
    with [maxInterval] remaining. *)
Theorem timer_reset_remaining :
  ∀ (Fn : Type) (t : timer) (d : Duration) (bfr : BoundedFrequencyRunner Fn),
    minDuration ≤ d ≤ maxDuration →
    timer_Remaining (timer_Reset t d) = d
    ∧ timer_Remaining (timer_Stop t) = timer_Remaining t
    ∧ timer_Reset (timer_Stop t) d = timer_Reset t d
    ∧ (maxInterval bfr = d → timer_Remaining (timer_ (Loop_start bfr)) = d).
Proof.
  intros Fn t d bfr Hd. split_and!; [|done..|].
  - unfold timer_Remaining, timer_Reset. simpl. by apply Time_Sub_Add_in_range.
  - intros Hmax. unfold Loop_start, timer_Remaining, timer_Reset. simpl.
    rewrite Hmax. by apply Time_Sub_Add_in_range.
Qed.

Lemma timer_reset_remaining_witness :
  timer_Remaining (timer_Reset {| clock := 7; next := 0; armed := false |} (5 * Second))
  = 5 * Second.
Proof.
  apply (timer_reset_remaining unit {| clock := 7; next := 0; armed := false |}
           (5 * Second)
           {| name := ""; minInterval := 0; maxInterval := 0; run := false; fn := tt;
              lastRun := 0; timer_ := {| clock := 7; next := 0; armed := false |};
              limiter := nullLimiter; retry := false; retryTime := 0 |}).
  unfold minDuration, maxDuration, Second. lia.
Defined.

(** X18: [RetryAfter] records the soonest requested retry: the new time
    when none was recorded, the earlier of the recorded and the new time
    otherwise, so a recorded retry time is never moved later.  It touches
    nothing but the retry time and the retry signal, and the signal is
    queued whenever it records the new time. *)
Theorem retry_after_records_soonest :
  ∀ (Fn : Type) (bfr : BoundedFrequencyRunner Fn) (interval : Duration),
    let requested := Time_Add (timer_Now (timer_ bfr)) interval in
    retryTime (RetryAfter bfr interval)
    = (if Time_IsZero (retryTime bfr) then requested
       else Z.min (retryTime bfr) requested)
    ∧ (retryTime bfr ≠ 0 → retryTime (RetryAfter bfr interval) ≤ retryTime bfr)
    ∧ (retry bfr = true → retry (RetryAfter bfr interval) = true)
    ∧ (retryTime (RetryAfter bfr interval) ≠ retryTime bfr →
       retry (RetryAfter bfr interval) = true)
    ∧ RetryAfter bfr interval
      = with_retry bfr (retryTime (RetryAfter bfr interval))
          (retry (RetryAfter bfr interval)).
Proof.
  intros Fn bfr interval requested. unfold RetryAfter. fold requested.
  unfold Time_IsZero, Time_Before.
  destruct (Z.eqb_spec (retryTime bfr) 0) as [Hz|Hnz]; simpl.
  - split_and!; [done|done|done|done|reflexivity].
  - destruct (Z.ltb_spec (retryTime bfr) requested) as [Hlt|Hge]; simpl.
    + split_and!; [lia|lia|done|done|by destruct bfr].
    + split_and!; [lia|lia|done|done|reflexivity].
Qed.

Lemma doRetry_retryTime {Fn : Type} (lapse1 lapse2 : Duration)
    (bfr : BoundedFrequencyRunner Fn) :
  retryTime (doRetry lapse1 lapse2 bfr) = 0.
Proof.
  unfold doRetry. unfold Time_IsZero.
  destruct (Z.eqb_spec (retryTime bfr) 0) as [Hz|Hnz]; [done|]. by case_match.
Qed.

(** X19: [doRetry] always leaves no retry time recorded, changes nothing
    but the retry time and the timer, and a second [doRetry] is the
    spurious wake-up: it changes nothing.  This holds whatever time passes
    between the readings of the clock. *)
Theorem do_retry_clears :
  ∀ (Fn : Type) (lapse1 lapse2 lapse1' lapse2' : Duration)
    (bfr : BoundedFrequencyRunner Fn),
    retryTime (doRetry lapse1 lapse2 bfr) = 0
    ∧ doRetry lapse1' lapse2' (doRetry lapse1 lapse2 bfr) = doRetry lapse1 lapse2 bfr
    ∧ doRetry lapse1 lapse2 bfr
      = with_timer (with_retry bfr 0 (retry bfr)) (timer_ (doRetry lapse1 lapse2 bfr)).
Proof.
  intros Fn lapse1 lapse2 lapse1' lapse2' bfr.
  assert (Hclear : retryTime (doRetry lapse1 lapse2 bfr) = 0)
    by apply doRetry_retryTime.
  split_and!; [done| |].
  - unfold doRetry at 1. unfold Time_IsZero. by rewrite Hclear.
  - unfold doRetry. unfold Time_IsZero.
    destruct (Z.eqb_spec (retryTime bfr) 0) as [Hz|Hnz].
    + destruct bfr. simpl in *. by rewrite Hz.
    + by case_match.
Qed.

(** X20: a throttled [tryRun] does not call the closure and changes only
    the timer: the timer is armed, and what remains is the smaller of the
    time to the next possible run, [minInterval] less the time since the
    last run, and what remained; so the next run is never put off. *)
Theorem try_run_throttled :
  ∀ (Fn : Type) (call : Fn → BoundedFrequencyRunner Fn → BoundedFrequencyRunner Fn)
    (bucket : bool) (bfr : BoundedFrequencyRunner Fn),
    limiter_TryAccept (limiter bfr) bucket = false →
    let nextPossible :=
      wrap64 (minInterval bfr - timer_Since (timer_ bfr) (lastRun bfr)) in
    tryRun call bucket bfr = with_timer bfr (timer_ (tryRun call bucket bfr))
    ∧ armed (timer_ (tryRun call bucket bfr)) = true
    ∧ timer_Remaining (timer_ (tryRun call bucket bfr))
      = Z.min nextPossible (timer_Remaining (timer_ bfr))
    ∧ timer_Remaining (timer_ (tryRun call bucket bfr)) ≤ timer_Remaining (timer_ bfr).
Proof.
  intros Fn call bucket bfr Hthrottle nextPossible.
  unfold tryRun. rewrite Hthrottle. cbv zeta. fold nextPossible.
  assert (Hrem : timer_Remaining
            (timer_Reset (timer_Stop (timer_ bfr))
               (if nextPossible <? timer_Remaining (timer_ bfr)
                then nextPossible else timer_Remaining (timer_ bfr)))
          = Z.min nextPossible (timer_Remaining (timer_ bfr))).
  { unfold timer_Remaining at 1, timer_Reset, timer_Stop. simpl.
    pose proof (wrap64_bounds
      (minInterval bfr - timer_Since (timer_ bfr) (lastRun bfr))) as Hnp.
    fold nextPossible in Hnp.
    pose proof (Time_Sub_bounds (next (timer_ bfr)) (clock (timer_ bfr))) as Hr.
    fold (timer_Remaining (timer_ bfr)) in Hr.
    destruct (Z.ltb_spec nextPossible (timer_Remaining (timer_ bfr)));
      rewrite Time_Sub_Add_in_range; lia. }
  split_and!; [done|done|exact Hrem|].
  etransitivity; [apply Z.eq_le_incl; exact Hrem|lia].
Qed.

(** The sample runner is throttled: two seconds remain. *)
Lemma try_run_throttled_witness :
  timer_Remaining (timer_ (tryRun (λ _ b, b) false sampleRunner)) = 2 * Second.
Proof.
  rewrite (proj1 (proj2 (proj2
             (try_run_throttled unit (λ _ b, b) false sampleRunner eq_refl)))).
  reflexivity.
Defined.

(** X21: an admitted [tryRun] calls the closure, then records the time of
    the run and restarts the period: the last run is the clock's reading
    after the call, the timer is armed and [maxInterval] remains; apart
    from the last run and the timer the runner is as the call left it. *)
Theorem try_run_admitted :
  ∀ (Fn : Type) (call : Fn → BoundedFrequencyRunner Fn → BoundedFrequencyRunner Fn)
    (bucket : bool) (bfr : BoundedFrequencyRunner Fn),
    limiter_TryAccept (limiter bfr) bucket = true →
    let ran := call (fn bfr) bfr in
    minDuration ≤ maxInterval ran ≤ maxDuration →
    tryRun call bucket bfr
    = with_timer (with_lastRun ran (timer_Now (timer_ ran)))
        (timer_ (tryRun call bucket bfr))
    ∧ lastRun (tryRun call bucket bfr) = timer_Now (timer_ ran)
    ∧ armed (timer_ (tryRun call bucket bfr)) = true
    ∧ timer_Remaining (timer_ (tryRun call bucket bfr)) = maxInterval ran
    ∧ timer_Since (timer_ (tryRun call bucket bfr)) (lastRun (tryRun call bucket bfr)) = 0.
Proof.
  intros Fn call bucket bfr Haccept ran Hmax.
  unfold tryRun. rewrite Haccept. cbv zeta. fold ran.
  split_and!; [done..| |].
  - unfold timer_Remaining, timer_Reset. simpl. by apply Time_Sub_Add_in_range.
  - unfold timer_Since, timer_Now, Time_Sub, minDuration, maxDuration. simpl.
    rewrite Z.sub_diag. reflexivity.
Qed.

Lemma try_run_admitted_witness :
  timer_Remaining (timer_ (tryRun (λ _ b, b) true sampleRunner)) = 20 * Second.
Proof.
  apply (try_run_admitted unit (λ _ b, b) true sampleRunner eq_refl).
  unfold sampleRunner, minDuration, maxDuration, Second. simpl. lia.
Defined.

(** X22: a runner constructed with a zero [minInterval] is never
    throttled: whatever a token bucket would answer, [tryRun] calls the
    closure and records the run. *)
Theorem zero_min_interval_never_throttles :
  ∀ (Fn : Type) (call : Fn → BoundedFrequencyRunner Fn → BoundedFrequencyRunner Fn)
    (name : string) (fn : Fn) (maxInterval : Duration) (burstRuns : Z) (t : timer),
    0 ≤ maxInterval →
    ∃ bfr, construct name fn 0 maxInterval burstRuns (Some t) = Returns bfr
           ∧ ∀ bucket,
               tryRun call bucket bfr = tryRun call true bfr
               ∧ lastRun (tryRun call bucket bfr)
                 = timer_Now (timer_ (call fn bfr)).
Proof.
  intros Fn call name fn maxInterval burstRuns t Hmax. unfold construct.
  destruct (Z.ltb_spec maxInterval 0) as [?|_]; [lia|].
  eexists. split; [reflexivity|]. intros bucket. by destruct bucket.
Qed.

Lemma zero_min_interval_never_throttles_witness :
  ∃ bfr, construct "r" tt 0 (5 * Second) 1
           (Some {| clock := 0; next := 0; armed := false |}) = Returns bfr
         ∧ lastRun (tryRun (λ _ b, b) false bfr) = 0.
Proof.
  destruct (zero_min_interval_never_throttles unit (λ _ b, b) "r" tt (5 * Second) 1
              {| clock := 0; next := 0; armed := false |}) as (bfr & Hc & Hrun).
  - unfold Second. lia.
  - exists bfr. split; [exact Hc|]. rewrite (proj2 (Hrun false)).
    injection Hc as <-. reflexivity.
Defined.

Section RetryProtocol.
Context {Fn : Type}.

Lemma retryStep_covered ev (st st' : BoundedFrequencyRunner Fn * bool) :
  retryCovered st → retryStep ev st = Some st' → retryCovered st'.
Proof.
  destruct st as [bfr received]. unfold retryCovered. simpl.
  intros Hcov Hstep. destruct ev as [interval| |lapse1 lapse2|elapsed]; simpl in Hstep.
  - injection Hstep as <-. simpl. unfold RetryAfter.
    destruct (negb (Time_IsZero (retryTime bfr))
              && Time_Before (retryTime bfr)
                   (Time_Add (timer_Now (timer_ bfr)) interval)) eqn:Hkeep.
    + done.
    + intros _. by left.
  - destruct (retry bfr && negb received); [|done]. injection Hstep as <-.
    intros _. by right.
  - destruct (received && (0 <=? lapse1) && (0 <=? lapse2)); [|done].
    injection Hstep as <-. simpl.
    intros Hnz. destruct Hnz. apply doRetry_retryTime.
  - destruct (0 <=? elapsed); [|done]. by injection Hstep as <-.
Qed.

End RetryProtocol.

Section RetryRuns.
Context {Fn : Type}.

Lemma retryRun_covered evs (st st' : BoundedFrequencyRunner Fn * bool) :
  retryCovered st → retryRun evs st = Some st' → retryCovered st'.
Proof.
  revert st. induction evs as [|ev evs IH]; intros st Hcov Hrun; simpl in Hrun.
  - by injection Hrun as <-.
  - destruct (retryStep ev st) as [st1|] eqn:Hstep; [|done].
    eapply IH; [|done]. by eapply retryStep_covered.
Qed.

Lemma resetLapse_nonneg evs (st st' : BoundedFrequencyRunner Fn * bool) :
  retryRun evs st = Some st' → 0 ≤ resetLapse evs.
Proof.
  revert st. induction evs as [|ev evs IH]; intros st Hrun; simpl in *; [done|].
  destruct (retryStep ev st) as [st1|] eqn:Hstep; [|done].
  specialize (IH _ Hrun).
  destruct ev as [interval| |lapse1 lapse2|elapsed]; try done.
  simpl in Hstep.
  destruct (st.2 && (0 <=? lapse1) && (0 <=? lapse2)) eqn:Hen; [|done].
  apply andb_true_iff in Hen as [_ H2]. apply Z.leb_le in H2. lia.
Qed.

Lemma retryStep_next ev (st st' : BoundedFrequencyRunner Fn * bool) :
  retryStep ev st = Some st' →
  next (timer_ st'.1) ≤ next (timer_ st.1) + resetLapse [ev].
Proof.
  destruct st as [bfr received]. intros Hstep.
  destruct ev as [interval| |lapse1 lapse2|elapsed]; simpl in Hstep.
  - injection Hstep as <-. simpl. unfold RetryAfter. case_match; simpl; lia.
  - destruct (retry bfr && negb received); [|done]. injection Hstep as <-.
    simpl. lia.
  - destruct (received && (0 <=? lapse1) && (0 <=? lapse2)) eqn:Hen; [|done].
    apply andb_true_iff in Hen as [_ H2]. apply Z.leb_le in H2.
    injection Hstep as <-. simpl.
    pose proof (doRetry_next lapse1 lapse2 bfr H2). lia.
  - destruct (0 <=? elapsed); [|done]. injection Hstep as <-. simpl. lia.
Qed.

Lemma retryRun_next evs (st st' : BoundedFrequencyRunner Fn * bool) :
  retryRun evs st = Some st' →
  next (timer_ st'.1) ≤ next (timer_ st.1) + resetLapse evs.
Proof.
  revert st. induction evs as [|ev evs IH]; intros st Hrun; simpl in Hrun.
  - injection Hrun as <-. simpl. lia.
  - destruct (retryStep ev st) as [st1|] eqn:Hstep; [|done].
    pose proof (IH _ Hrun). pose proof (retryStep_next _ _ _ Hstep).
    assert (resetLapse (ev :: evs) = resetLapse [ev] + resetLapse evs) as ->
      by (destruct ev; simpl; lia).
    lia.
Qed.

End RetryRuns.

(** X23: no requested retry is lost.  From a runner with no retry time
    recorded, such as a constructed one, whatever the interleaving of
    [RetryAfter] calls, receptions of the retry signal by the loop, runs of
    [doRetry] and ticks of the clock: a recorded retry time always has its
    signal queued or already received by the loop, and the loop step that
    leads to [doRetry] can then happen, whatever time passes within
    [doRetry]. *)
Theorem retry_never_lost :
  ∀ (Fn : Type) (bfr : BoundedFrequencyRunner Fn) (evs : list retryEvent)
    (st : BoundedFrequencyRunner Fn * bool),
    retryTime bfr = 0 →
    retryRun evs (bfr, false) = Some st →
    retryCovered st
    ∧ (retryTime st.1 ≠ 0 →
       is_Some (retryStep evReceive st)
       ∨ ∀ lapse1 lapse2 : Duration, 0 ≤ lapse1 → 0 ≤ lapse2 →
           is_Some (retryStep (evDoRetry lapse1 lapse2) st)).
Proof.
  intros Fn bfr evs st Hzero Hrun.
  assert (Hcov : retryCovered st).
  { eapply retryRun_covered; [|done]. by intros Hnz. }
  split; [done|]. intros Hnz. destruct st as [b received]. simpl in *.
  destruct received.
  - right. intros lapse1 lapse2 H1 H2. simpl.
    apply Z.leb_le in H1, H2. by rewrite H1, H2.
  - destruct (Hcov Hnz) as [Hsig|?]; [|done]. left. simpl in Hsig. by rewrite Hsig.
Qed.

(** Two retries are requested, the loop receives the signal, a third retry
    is requested before [doRetry] runs. *)
Lemma retry_never_lost_witness :
  ∃ st, retryRun [evRetryAfter (5 * Second); evRetryAfter (2 * Second); evReceive;
                  evTick Second; evRetryAfter Second; evDoRetry 3 5]
          (sampleRunner, false) = Some st
        ∧ retryCovered st.
Proof.
  eexists. split; [reflexivity|].
  eapply (proj1 (retry_never_lost unit sampleRunner
            [evRetryAfter (5 * Second); evRetryAfter (2 * Second); evReceive;
             evTick Second; evRetryAfter Second; evDoRetry 3 5] _ eq_refl eq_refl)).
Defined.

(** X24: through any such interleaving the timer's deadline is moved later
    by no more than the time that passed within the runs of [doRetry]
    between the test of the remaining time and [Reset]: requesting retries
    and processing them at a clock that stands still meanwhile can only
    pull the next fire sooner. *)
Theorem retry_runs_delay_bounded :
  ∀ (Fn : Type) (evs : list retryEvent) (st st' : BoundedFrequencyRunner Fn * bool),
    retryRun evs st = Some st' →
    0 ≤ resetLapse evs
    ∧ next (timer_ st'.1) ≤ next (timer_ st.1) + resetLapse evs
    ∧ (resetLapse evs = 0 → next (timer_ st'.1) ≤ next (timer_ st.1)).
Proof.
  intros Fn evs st st' Hrun.
  pose proof (retryRun_next _ _ _ Hrun) as Hle.
  split_and!; [by eapply resetLapse_nonneg|done|]. intros Hz. lia.
Qed.

Lemma retry_runs_delay_bounded_witness :
  ∃ st, retryRun [evRetryAfter (2 * Second); evReceive; evDoRetry 3 5]
          (sampleRunner, false) = Some st
        ∧ next (timer_ st.1) ≤ 111 * Second + 5.
Proof.
  eexists. split; [reflexivity|].
  apply (retry_runs_delay_bounded unit
           [evRetryAfter (2 * Second); evReceive; evDoRetry 3 5] (sampleRunner, false)).
  reflexivity.
Defined.
